(** * result-or-error: the [$try] helper and the [ResultOrError] types

    A shallow embedding of [src/try.ts] (the function [$try]) and of the type
    declarations [DeepReadonly], [ResultOrErrorResult], [ResultOrErrorError]
    and [ResultOrError], followed by the properties of the specification.

    Layout:
    - [JS]        the JavaScript values [$try] handles: truthiness, [typeof],
                  member lookup, assignment, the built-in promise members;
    - [Types]     the TypeScript type declarations and [DeepReadonly];
    - [Try]       [$try] itself, over an abstract caller world;
    - [Scenarios] concrete callers used to run the definitions;
    - [Recorder]  a caller whose world records every call made to it;
    - [Jobs]      the promise heap and the job queue, which give the
                  settlement of a promise its meaning over time;
    - the properties.

    Boundary of the model. Members are own data properties, so that reading
    [x.then] runs no code: accessor properties and proxies are left out.
    The built-in prototypes are the ones the engine ships. A function of
    the caller is an arbitrary transformer of the caller's world that
    completes, normally or by raising. In [Try] a promise stands for its
    eventual settlement; [Jobs] follows the same promises step by step and
    [then_catch_settles] relates the two. *)

From Stdlib Require Import String List ZArith Bool Lia Arith Permutation.
Import ListNotations.
Local Open Scope string_scope.
Local Open Scope list_scope.
Local Set Warnings "-register-all,-notation-for-abbreviation".

(* ================================================================== *)
(** ** JavaScript values *)

Module JS.

(** Identifier of a function written by the caller. What such a function
    does is given by the caller's semantics (see [Try]). *)
Definition fid := nat.

(** The internal kind of an object. *)
Inductive kind : Type :=
| KOrdinary                 (* an object literal *)
| KError (name : string)    (* an instance of Error or of one of its subclasses *)
| KFunction (f : fid).      (* a function written by the caller *)

(** The two arrow functions [$try] creates and hands to [then] and [catch]:
    [(value) => ({ result: value })] and [(error) => ({ error })]. *)
Inductive closure : Type := WrapResult | WrapError.

(** The built-in members of [Promise.prototype] that [$try] reaches. *)
Inductive native : Type := PromiseThen | PromiseCatch.

(** Values. Numbers are the integers and NaN (no arithmetic is performed on
    them, only truthiness is observed). An object carries its own data
    properties, each with its [writable] attribute, and its [extensible]
    flag. A promise is represented by its eventual settlement. *)
Inductive value : Type :=
| VUndefined
| VNull
| VBool (b : bool)
| VNum (n : Z)
| VNaN
| VStr (s : string)
| VObj (k : kind) (props : list (string * (value * bool))) (extensible : bool)
| VClosure (h : closure)
| VNative (m : native)
| VPromise (o : fate)
with fate : Type :=
| Fulfills (v : value)      (* eventually fulfilled with [v] *)
| Rejects (e : value)       (* eventually rejected with reason [e] *)
| Never.                    (* stays pending *)

Definition props_t := list (string * (value * bool)).

(** ToBoolean. *)
Definition truthy (v : value) : bool :=
  match v with
  | VUndefined | VNull | VNaN => false
  | VBool b => b
  | VNum n => negb (Z.eqb n 0)
  | VStr s => negb (String.eqb s "")
  | VObj _ _ _ | VClosure _ | VNative _ | VPromise _ => true
  end.

(** [typeof v === 'function']. *)
Definition is_function (v : value) : bool :=
  match v with
  | VObj (KFunction _) _ _ | VClosure _ | VNative _ => true
  | _ => false
  end.

Fixpoint lookup (k : string) (ps : props_t) : option (value * bool) :=
  match ps with
  | [] => None
  | (k', p) :: ps' => if String.eqb k k' then Some p else lookup k ps'
  end.

Definition has_own (v : value) (k : string) : bool :=
  match v with
  | VObj _ ps _ => match lookup k ps with Some _ => true | None => false end
  | _ => false
  end.

(** What the prototype of an object of the given kind answers for a member
    the object does not own. Only [Error.prototype] has members this
    development reads ([message] is the empty string there). *)
Definition inherited (k : kind) (key : string) : value :=
  match k with
  | KError name =>
      if String.eqb key "message" then VStr ""
      else if String.eqb key "name" then VStr name
      else VUndefined
  | _ => VUndefined
  end.

(** Member read [v.key] on a value that is neither [undefined] nor [null].
    Promises own no properties here, so [then] and [catch] are the built-in
    ones; primitives and functions inherit nothing named [then], [catch],
    [result], [error] or [message]. *)
Definition get (v : value) (key : string) : value :=
  match v with
  | VObj k ps _ =>
      match lookup key ps with
      | Some (x, _) => x
      | None => inherited k key
      end
  | VPromise _ =>
      if String.eqb key "then" then VNative PromiseThen
      else if String.eqb key "catch" then VNative PromiseCatch
      else VUndefined
  | _ => VUndefined
  end.

(** The test of lines 27 and 43:
    [v && typeof v.then === 'function']. *)
Definition is_thenable (v : value) : bool :=
  truthy v && is_function (get v "then").

Definition is_promise (v : value) : bool :=
  match v with VPromise _ => true | _ => false end.

(** An awaitable-shaped value that is not a promise: its [then] member is
    code of the caller. *)
Definition foreign_thenable (v : value) : bool :=
  is_thenable v && negb (is_promise v).

(** *** Assignment *)

Fixpoint update (k : string) (x : value) (ps : props_t) : props_t :=
  match ps with
  | [] => []
  | (k', (y, w)) :: ps' =>
      if String.eqb k k' then (k', (x, w)) :: ps'
      else (k', (y, w)) :: update k x ps'
  end.

(** The assignment [o.key = x] on own data properties: the new state of the
    object and whether the write took place. A write to a non-writable
    property, or of a new property on a non-extensible object, is refused
    (a TypeError in a module, which is strict code) and leaves the object
    as it was; so is a write on a primitive. Promises and the built-in and
    arrow functions are objects too, which the engine lets one extend, but
    the model keeps no properties and no attributes for them: they are
    outside the domain of [assign], [freeze] and [is_frozen], which answer
    [None] there. *)
Definition assign (o : value) (key : string) (x : value) : option (value * bool) :=
  match o with
  | VObj k ps ext =>
      Some
        match lookup key ps with
        | Some (_, true) => (VObj k (update key x ps) ext, true)
        | Some (_, false) => (o, false)
        | None => if ext then (VObj k (ps ++ [(key, (x, true))]) ext, true)
                  else (o, false)
        end
  | VClosure _ | VNative _ | VPromise _ => None
  | _ => Some (o, false)
  end.

(** [Object.freeze], one level. *)
Definition freeze (o : value) : option value :=
  match o with
  | VObj k ps _ =>
      Some (VObj k (map (fun p => (fst p, (fst (snd p), false))) ps) false)
  | VClosure _ | VNative _ | VPromise _ => None
  | _ => Some o
  end.

(** [Object.isFrozen]. *)
Definition is_frozen (o : value) : option bool :=
  match o with
  | VObj _ ps ext => Some (negb ext && forallb (fun p => negb (snd (snd p))) ps)
  | VClosure _ | VNative _ | VPromise _ => None
  | _ => Some true
  end.

(** *** Object construction *)

(** The object literal [{ key: x }]. *)
Definition literal (key : string) (x : value) : value :=
  VObj KOrdinary [(key, (x, true))] true.

(** [new TypeError(msg)]: [message] is an own, writable property. *)
Definition new_TypeError (msg : string) : value :=
  VObj (KError "TypeError") [("message", (VStr msg, true))] true.

(** The TypeError the engine raises for a call of something that is not
    callable or for a member read on [undefined] or [null]. Its text is the
    engine's own. *)
Definition engine_TypeError : value :=
  new_TypeError "not a function".

(** *** The arrow functions of [$try] *)

Definition apply_closure (h : closure) (x : value) : value :=
  match h with
  | WrapResult => literal "result" x    (* (value) => ({ result: value }) *)
  | WrapError => literal "error" x      (* (error) => ({ error }) *)
  end.

(** *** Promise.prototype.then and Promise.prototype.catch

    [promise_then o h] is the settlement of [p.then(h)] where [p] settles as
    [o]: on fulfilment the handler runs and its result, a fresh object
    literal and so not a thenable, fulfils the derived promise; a rejection
    passes through. [promise_catch o h] is [p.catch(h)], that is
    [p.then(undefined, h)]: a fulfilment passes through, a rejection runs
    the handler. The handlers are the arrow functions of [$try], which
    return normally on every argument. The module [Jobs] below follows the
    registration of the reactions and the jobs that run them. *)
Definition promise_then (o : fate) (h : closure) : fate :=
  match o with
  | Fulfills v => Fulfills (apply_closure h v)
  | Rejects e => Rejects e
  | Never => Never
  end.

Definition promise_catch (o : fate) (h : closure) : fate :=
  match o with
  | Fulfills v => Fulfills v
  | Rejects e => Fulfills (apply_closure h e)
  | Never => Never
  end.

End JS.

(* ================================================================== *)
(** ** The type declarations *)

Module Types.

(** A property declaration of an object type. *)
Record field (T : Type) : Type := mkField {
  f_name : string;
  f_readonly : bool;
  f_optional : bool;
  f_type : T
}.
Arguments mkField {T}.
Arguments f_name {T}.
Arguments f_readonly {T}.
Arguments f_optional {T}.
Arguments f_type {T}.

(** The TypeScript types the declarations range over. [TPrim] stands for the
    types that are not object types ([string], [number], [undefined],
    [never], [unknown], ...). *)
Inductive ty : Type :=
| TPrim (name : string)
| TFunction (params : list ty) (ret : ty)
| TObject (fields : list (field ty))
| TArray (readonly : bool) (elem : ty)
| TUnion (members : list ty).

(** An induction principle for [ty] that reaches the types nested in
    parameter lists, property lists and union members. *)
Section TyInd.
Variable P : ty -> Prop.
Hypothesis HPrim : forall n, P (TPrim n).
Hypothesis HFunction : forall ps r, Forall P ps -> P r -> P (TFunction ps r).
Hypothesis HObject : forall fs, Forall (fun f => P (f_type f)) fs -> P (TObject fs).
Hypothesis HArray : forall ro e, P e -> P (TArray ro e).
Hypothesis HUnion : forall ts, Forall P ts -> P (TUnion ts).

Fixpoint ty_nested_ind (t : ty) : P t :=
  match t with
  | TPrim n => HPrim n
  | TFunction ps r =>
      HFunction ps r
        ((fix go (l : list ty) : Forall P l :=
            match l with
            | [] => Forall_nil _
            | x :: l' => Forall_cons x (ty_nested_ind x) (go l')
            end) ps)
        (ty_nested_ind r)
  | TObject fs =>
      HObject fs
        ((fix go (l : list (field ty)) : Forall (fun f => P (f_type f)) l :=
            match l with
            | [] => Forall_nil _
            | f :: l' => Forall_cons f (ty_nested_ind (f_type f)) (go l')
            end) fs)
  | TArray ro e => HArray ro e (ty_nested_ind e)
  | TUnion ts =>
      HUnion ts
        ((fix go (l : list ty) : Forall P l :=
            match l with
            | [] => Forall_nil _
            | x :: l' => Forall_cons x (ty_nested_ind x) (go l')
            end) ts)
  end.
End TyInd.

Definition never : ty := TPrim "never".
Definition tstring : ty := TPrim "string".

Section DeepReadonly.

(** The test [T extends (...args: unknown[]) => unknown] of line 1. It is
    TypeScript's assignability relation, which depends on the compiler
    options in force; it is a parameter here. *)
Variable extends_function : ty -> bool.

Definition readonly_field (dr : ty -> ty) (f : field ty) : field ty :=
  mkField (f_name f) true (f_optional f) (dr (f_type f)).

(** [DeepReadonly<T>]. A conditional type on a type parameter distributes
    over a union. A mapped type over an array type is the read-only array of
    the mapped element type; over a function type that failed the first test
    it keeps the (absent) properties and no call signature. *)
Fixpoint DeepReadonly (t : ty) : ty :=
  match t with
  | TUnion ts => TUnion (map DeepReadonly ts)
  | _ =>
      if extends_function t then t
      else
        match t with
        | TObject fs => TObject (map (readonly_field DeepReadonly) fs)
        | TArray _ e => TArray true (DeepReadonly e)
        | TFunction _ _ => TObject []
        | _ => t
        end
  end.

(** [interface ResultOrErrorResult<T> { result: T; error?: never }] *)
Definition ResultOrErrorResult (T : ty) : ty :=
  TObject [ mkField "result" false false T;
            mkField "error" false true never ].

(** [Error & { data?: E }], written out as the object type with the members
    of both sides; [Error] is the interface of the standard declarations,
    [{ name: string; message: string; stack?: string }]. *)
Definition ErrorWithData (E : ty) : ty :=
  TObject [ mkField "name" false false tstring;
            mkField "message" false false tstring;
            mkField "stack" false true tstring;
            mkField "data" false true E ].

(** [interface ResultOrErrorError<E> { result?: never; error: Error & { data?: E } }] *)
Definition ResultOrErrorError (E : ty) : ty :=
  TObject [ mkField "result" false true never;
            mkField "error" false false (ErrorWithData E) ].

(** [type ResultOrError<T, E> =
       DeepReadonly<ResultOrErrorResult<T> | ResultOrErrorError<E>>] *)
Definition ResultOrError (T E : ty) : ty :=
  DeepReadonly (TUnion [ResultOrErrorResult T; ResultOrErrorError E]).

(** Every property reachable from [t], through properties, array elements
    and union members, is declared [readonly]; the descent stops at a type
    that passes the function test. *)
Fixpoint all_readonly (t : ty) : bool :=
  match t with
  | TUnion ts => forallb all_readonly ts
  | _ =>
      extends_function t ||
      match t with
      | TObject fs =>
          forallb (fun f => f_readonly f && all_readonly (f_type f)) fs
      | TArray ro e => ro && all_readonly e
      | _ => true
      end
  end.

End DeepReadonly.

Fixpoint find_field (k : string) (fs : list (field ty)) : option (field ty) :=
  match fs with
  | [] => None
  | f :: fs' => if String.eqb k (f_name f) then Some f else find_field k fs'
  end.

(** The declaration of member [k] in an object type. *)
Definition member (t : ty) (k : string) : option (field ty) :=
  match t with
  | TObject fs => find_field k fs
  | _ => None
  end.

End Types.

(* ================================================================== *)
(** ** The helper [$try] *)

Module Try.
Import JS.

(** How a computation ends: normally with a value, or by raising one. *)
Inductive completion (A : Type) : Type :=
| Normal (a : A)
| Throw (e : value).
Arguments Normal {A}.
Arguments Throw {A}.

(** What [$try] itself calls: the zero-argument call [fn()] of line 40, and
    the member calls [x.then(h)] and [x.catch(h)] of lines 28 to 30 and 44
    to 46. *)
Inductive event : Type :=
| EvInvoke (fn : value)
| EvMethod (recv : value) (name : string) (arg : closure).

Definition is_invoke (e : event) : bool :=
  match e with EvInvoke _ => true | EvMethod _ _ _ => false end.

(** Number of zero-argument calls in a trace. *)
Definition invocations (tr : list event) : nat :=
  length (filter is_invoke tr).

(** The Result a returned value delivers to the caller: the value itself
    when it is not a promise, the fulfilment value of a promise that
    fulfils; nothing when the promise does not fulfil. *)
Definition delivered (v : value) : option value :=
  match v with
  | VPromise (Fulfills r) => Some r
  | VPromise _ => None
  | _ => Some v
  end.

(** Exactly one of the slots [result] and [error] is an own property. *)
Definition exactly_one (r : value) : bool :=
  xorb (has_own r "result") (has_own r "error").

(** The Results that [$try] builds: the object literals [{ result: x }] of
    lines 29, 45 and 50 and [{ error: x }] of lines 30, 46 and 53. *)
Definition built (r : value) : Prop :=
  exists (h : closure) (x : value), r = apply_closure h x.

Section Caller.

(** The state of the calling program, and what each of its functions does
    when called with a receiver and arguments: how it completes and the
    state it leaves. Both are arbitrary. *)
Variable World : Type.
Variable run : fid -> value -> list value -> World -> completion value * World.

(** The state threaded through [$try]: the caller's world, which only the
    caller's functions change, and the trace of calls made so far. [$try]
    has no component of its own. *)
Record state : Type := mkState {
  world : World;
  trace : list event
}.

Definition M (A : Type) : Type := state -> completion A * state.

Definition ret {A} (a : A) : M A := fun st => (Normal a, st).

Definition throw {A} (e : value) : M A := fun st => (Throw e, st).

Definition bind {A B} (m : M A) (k : A -> M B) : M B :=
  fun st =>
    match m st with
    | (Normal a, st') => k a st'
    | (Throw e, st') => (Throw e, st')
    end.

(** [try { m } catch (e) { handler e }] *)
Definition try_catch {A} (m : M A) (handler : value -> M A) : M A :=
  fun st =>
    match m st with
    | (Normal a, st') => (Normal a, st')
    | (Throw e, st') => handler e st'
    end.

Definition log (e : event) : M unit :=
  fun st => (Normal tt, mkState (world st) (trace st ++ [e])).

(** A function of the caller, run in the caller's world. *)
Definition call_user (f : fid) (this : value) (args : list value) : M value :=
  fun st =>
    let (c, w) := run f this args (world st) in
    (c, mkState w (trace st)).

Notation "x <- m ;; k" := (bind m (fun x => k))
  (at level 61, m at next level, right associativity).
Notation "m ;;; k" := (bind m (fun _ => k))
  (at level 61, right associativity).

(** The call [fn()]: no receiver ([this] is [undefined] in a module) and no
    arguments. *)
Definition invoke (fn : value) : M value :=
  log (EvInvoke fn) ;;;
  match fn with
  | VObj (KFunction f) _ _ => call_user f VUndefined []
  | VClosure h => ret (apply_closure h VUndefined)
  | VNative _ => throw engine_TypeError   (* the receiver is not a promise *)
  | _ => throw engine_TypeError           (* not callable *)
  end.

(** The member call [recv.name(h)], where [h] is one of the arrow functions
    of [$try]. *)
Definition call_method (recv : value) (name : string) (h : closure) : M value :=
  log (EvMethod recv name h) ;;;
  match recv with
  | VUndefined | VNull => throw engine_TypeError
  | _ =>
      match get recv name with
      | VNative m =>
          match recv with
          | VPromise o =>
              ret (VPromise (match m with
                             | PromiseThen => promise_then o h
                             | PromiseCatch => promise_catch o h
                             end))
          | _ => throw engine_TypeError   (* the receiver is not a promise *)
          end
      | VObj (KFunction f) _ _ => call_user f recv [VClosure h]
      | VClosure h' => ret (apply_closure h' (VClosure h))
      | _ => throw engine_TypeError       (* not callable *)
      end
  end.

(** [x.then((value) => ({ result: value })).catch((error) => ({ error }))],
    lines 28 to 30 and 44 to 46. *)
Definition then_catch (x : value) : M value :=
  p <- call_method x "then" WrapResult ;;
  call_method p "catch" WrapError.

(** [$try], lines 25 to 55. *)
Definition dollar_try (arg : value) : M value :=
  (* Promise directly: $try(fetch(url)) *)
  if is_thenable arg then then_catch arg
  else if negb (is_function arg) then
    throw (new_TypeError "$try expects a function or a Promise")
  else
    let fn := arg in
    try_catch
      (v <- invoke fn ;;                 (* const value = fn() *)
       (* Thunk that returns a Promise: $try(() => fetch(url)) *)
       if is_thenable v then then_catch v
       (* Synchronous success *)
       else ret (literal "result" v))
      (fun error =>
         (* Synchronous error *)
         ret (literal "error" error)).

(** The error of line 34. *)
Definition mismatch_error : value :=
  new_TypeError "$try expects a function or a Promise".

(** A computation is framed when the calls made before it change neither
    how it completes nor the world it leaves, and it only appends to the
    trace. *)
Definition framed {A} (m : M A) : Prop :=
  forall (w : World) (tr : list event),
    m (mkState w tr) =
    (fst (m (mkState w [])),
     mkState (world (snd (m (mkState w []))))
             (tr ++ trace (snd (m (mkState w []))))).

(** A run of [$try] that hands control to no [then] or [catch] member
    written by the caller: neither the argument nor, for a function, the
    value it returns is a foreign thenable. *)
Definition standard (arg : value) (st : state) : bool :=
  negb (foreign_thenable arg) &&
  match invoke arg st with
  | (Normal x, _) => negb (foreign_thenable x)
  | (Throw _, _) => true
  end.

End Caller.

Arguments world {World}.
Arguments trace {World}.
Arguments mkState {World}.
Arguments framed {World A}.

End Try.

(* ================================================================== *)
(** ** Concrete callers *)

Module Scenarios.
Import JS Try.

(** A caller whose world counts the calls of its functions. *)
Definition World : Type := nat.

(** The first argument of a call, [undefined] when there is none. *)
Definition first_arg (args : list value) : value :=
  match args with
  | x :: _ => x
  | [] => VUndefined
  end.

(** What a continuation received by a [then] member does when the member
    calls it. *)
Definition call_value (f : value) (x : value) : value :=
  match f with
  | VClosure h => apply_closure h x
  | _ => VUndefined
  end.

Definition run (f : fid) (this : value) (args : list value) (w : World)
  : completion value * World :=
  match f with
  | 0 => (Normal (VNum 42), S w)                        (* () => 42 *)
  | 1 => (Throw (VStr "boom"), S w)                     (* () => { throw 'boom' } *)
  | 2 => (Throw (VNum 0), S w)                          (* () => { throw 0 } *)
  | 3 => (Normal (VPromise (Rejects (VStr "net down"))), S w)
                                                        (* () => Promise.reject('net down') *)
  | 4 => (Normal (VPromise (Fulfills (VNum 7))), S w)   (* () => Promise.resolve(7) *)
  | 5 => (Throw (VStr "bad then"), S w)                 (* then() { throw 'bad then' } *)
  | 6 => (Normal (VPromise (Fulfills (call_value (first_arg args) (VNum 5)))), S w)
                                                        (* then(f) { return Promise.resolve(5).then(f) } *)
  | 7 => (Throw (VNum 42), S w)                         (* () => { throw 42 } *)
  | _ => (Normal VUndefined, S w)                       (* () => {} *)
  end.

(** The function object of function [f], without own properties. *)
Definition fn (f : fid) : value := VObj (KFunction f) [] true.

(** The function object of function [f] with a [then] member [g]:
    [Object.assign(f, { then: g })]. *)
Definition fn_with_then (f g : fid) : value :=
  VObj (KFunction f) [("then", (fn g, true))] true.

(** The object [{ then: g }]. *)
Definition thenable (g : fid) : value :=
  VObj KOrdinary [("then", (fn g, true))] true.

Definition st0 : state World := mkState 0 [].

End Scenarios.

(** A caller whose world records every call of its functions: which
    function ran and with how many arguments. *)
Module Recorder.
Import JS Try.

Definition World : Type := list (fid * nat).

(** The object [{ catch: g }]. *)
Definition with_catch (g : fid) : value :=
  VObj KOrdinary [("catch", (Scenarios.fn g, true))] true.

(** The object [{ result: 1, error: 2 }]. *)
Definition both_slots : value :=
  VObj KOrdinary [("result", (VNum 1, true)); ("error", (VNum 2, true))] true.

Definition behaviour (f : fid) (args : list value) : completion value :=
  match f with
  | 0 => Normal (VNum 42)               (* () => 42 *)
  | 1 => Normal (with_catch 2)          (* then() { return { catch: ... } } *)
  | 2 => Normal both_slots              (* catch() { return { result: 1, error: 2 } } *)
  | 3 => Normal (VPromise (Fulfills
                   (Scenarios.call_value (Scenarios.first_arg args) (VNum 5))))
                                        (* then(f) { return Promise.resolve(5).then(f) } *)
  | 4 => Throw (VStr "boom")            (* () => { throw 'boom' } *)
  | _ => Normal VUndefined              (* () => {} *)
  end.

Definition run (f : fid) (this : value) (args : list value) (w : World)
  : completion value * World :=
  (behaviour f args, w ++ [(f, length args)]).

Definition st0 : state World := mkState [] [].

End Recorder.

(* ================================================================== *)
(** ** The job queue

    What the settlement of a promise stands for, step by step. The heap
    holds the state of every promise of the program (still pending, or
    settled), the reactions that [then] and [catch] registered with the
    arrow functions of [$try] and that wait for their promise to settle,
    and the queue of reaction jobs. The rest of the program is free to
    create promises and to settle the promises that no such reaction
    derives. *)

Module Jobs.
Import JS.

Definition pid := nat.

(** A reaction: the continuations given to [then] and the promise that
    [then] returned. *)
Record reaction : Type := mkReaction {
  on_fulfilled : option closure;
  on_rejected : option closure;
  target : pid
}.

(** What the job of a reaction settles the derived promise with, from the
    settlement of its promise: the continuation for that settlement runs
    and its result fulfils the derived promise; without a continuation the
    settlement passes through. *)
Definition react (r : reaction) (o : fate) : fate :=
  match o with
  | Fulfills v =>
      match on_fulfilled r with
      | Some h => Fulfills (apply_closure h v)
      | None => Fulfills v
      end
  | Rejects e =>
      match on_rejected r with
      | Some h => Fulfills (apply_closure h e)
      | None => Rejects e
      end
  | Never => Never
  end.

(** [status q] is [Never] while promise [q] is pending. *)
Record heap : Type := mkHeap {
  status : pid -> fate;
  waiting : list (pid * reaction);
  queue : list (reaction * fate);
  next : pid
}.

Definition pending (o : fate) : bool :=
  match o with Never => true | _ => false end.

Definition set_status (q : pid) (o : fate) (st : pid -> fate) : pid -> fate :=
  fun x => if Nat.eqb x q then o else st x.

Definition waits_for (q : pid) (w : pid * reaction) : bool := Nat.eqb (fst w) q.

(** Promise [q] settles as [o]: the reactions waiting for it become jobs. *)
Definition settle (q : pid) (o : fate) (h : heap) : heap :=
  mkHeap (set_status q o (status h))
         (filter (fun w => negb (waits_for q w)) (waiting h))
         (queue h ++ map (fun w => (snd w, o)) (filter (waits_for q) (waiting h)))
         (next h).

(** [src.then(onF, onR)]: a fresh pending promise is derived; its reaction
    waits while [src] is pending and is queued at once when [src] has
    settled. *)
Definition register (src : pid) (onF onR : option closure) (h : heap) : pid * heap :=
  let d := next h in
  let r := mkReaction onF onR d in
  (d, if pending (status h src)
      then mkHeap (status h) (waiting h ++ [(src, r)]) (queue h) (S d)
      else mkHeap (status h) (waiting h) (queue h ++ [(r, status h src)]) (S d)).

(** [p.then((value) => ({ result: value })).catch((error) => ({ error }))]
    on the heap: the promise returned and the heap left. *)
Definition then_catch (p : pid) (h : heap) : pid * heap :=
  let (d1, h1) := register p (Some WrapResult) None h in
  register d1 None (Some WrapError) h1.

(** The promises derived by a reaction that has not run yet. *)
Definition targets (h : heap) : list pid :=
  map (fun w => target (snd w)) (waiting h) ++ map (fun j => target (fst j)) (queue h).

(** The heap once the first job has left the queue. *)
Definition without_head (h : heap) (rest : list (reaction * fate)) : heap :=
  mkHeap (status h) (waiting h) rest (next h).

(** The first job of the queue runs. *)
Definition run_job (h : heap) : heap :=
  match queue h with
  | [] => h
  | (r, o) :: rest => settle (target r) (react r o) (without_head h rest)
  end.

Inductive step (h : heap) : heap -> Prop :=
| step_settle (q : pid) (o : fate) :
    (* the program resolves or rejects a promise of its own *)
    q < next h -> pending (status h q) = true -> pending o = false ->
    ~ In q (targets h) ->
    step h (settle q o h)
| step_new :
    (* the program creates a promise *)
    step h (mkHeap (status h) (waiting h) (queue h) (S (next h)))
| step_register (src : pid) (onF onR : option closure) :
    (* a continuation of [$try] is registered on a promise *)
    src < next h ->
    step h (snd (register src onF onR h))
| step_job :
    (* the event loop runs the first job *)
    queue h <> [] ->
    step h (run_job h).

(** Any number of steps. *)
Inductive steps : heap -> heap -> Prop :=
| steps_refl (h : heap) : steps h h
| steps_cons (h h1 h2 : heap) : step h h1 -> steps h1 h2 -> steps h h2.

(** The jobs run until none is left; [fuel] bounds their number. *)
Fixpoint drain (fuel : nat) (h : heap) : heap :=
  match fuel with
  | 0 => h
  | S n => drain n (run_job h)
  end.

(** The reactions that have not run yet: as many jobs as [drain] needs. *)
Definition backlog (h : heap) : nat := length (waiting h) + length (queue h).

(** The heaps that the steps keep to: no promise is derived twice, a
    derived promise stays pending until its job runs, the promises not yet
    created are pending, a reaction waits only for a pending promise and a
    job carries a settlement. *)
Record wf (h : heap) : Prop := mkWf {
  wf_nodup : NoDup (targets h);
  wf_target_pending : forall d, In d (targets h) -> pending (status h d) = true;
  wf_target_lt : forall d, In d (targets h) -> d < next h;
  wf_fresh : forall q, next h <= q -> pending (status h q) = true;
  wf_waiting : forall w, In w (waiting h) -> pending (status h (fst w)) = true;
  wf_queue : forall j, In j (queue h) -> pending (snd j) = false
}.

(** The two reactions of [then_catch]: the one [then] registers, with
    derived promise [d1], and the one [catch] registers on [d1], with
    derived promise [d2]. *)
Definition r1 (d1 : pid) : reaction := mkReaction (Some WrapResult) None d1.
Definition r2 (d2 : pid) : reaction := mkReaction None (Some WrapError) d2.

(** Where the chain of [then_catch] on [p] stands: both reactions wait; the
    job of the first is queued; the first has run and the job of the second
    is queued; both have run. *)
Inductive chain (p d1 d2 : pid) (h : heap) : Prop :=
| chain_waiting :
    In (p, r1 d1) (waiting h) -> In (d1, r2 d2) (waiting h) ->
    chain p d1 d2 h
| chain_first_job :
    In (r1 d1, status h p) (queue h) -> In (d1, r2 d2) (waiting h) ->
    chain p d1 d2 h
| chain_second_job :
    pending (status h p) = false ->
    status h d1 = react (r1 d1) (status h p) ->
    In (r2 d2, status h d1) (queue h) ->
    chain p d1 d2 h
| chain_done :
    pending (status h p) = false ->
    status h d1 = react (r1 d1) (status h p) ->
    status h d2 = react (r2 d2) (status h d1) ->
    chain p d1 d2 h.

(** A heap with one promise, number 0, pending. *)
Definition one_pending : heap := mkHeap (fun _ => Never) [] [] 1.

End Jobs.

(* ================================================================== *)
(** ** Properties of the values and of the type declarations *)

Import JS Try.

Lemma literal_not_thenable (key : string) (x : value) :
  key <> "then" -> is_thenable (literal key x) = false.
Proof.
  intros Hk. unfold is_thenable, literal, get. cbn [truthy andb lookup].
  destruct (String.eqb_spec "then" key) as [E | _]; [congruence | reflexivity].
Qed.

Lemma closure_result_not_thenable (h : closure) (x : value) :
  is_thenable (apply_closure h x) = false.
Proof. destruct h; apply literal_not_thenable; discriminate. Qed.

Lemma literal_get (key : string) (x : value) : get (literal key x) key = x.
Proof. unfold literal, get. cbn [lookup]. now rewrite String.eqb_refl. Qed.

Lemma literal_assign (key : string) (x y : value) :
  assign (literal key x) key y = Some (literal key y, true).
Proof. unfold literal, assign. cbn [lookup update]. now rewrite String.eqb_refl. Qed.

Lemma literal_not_frozen (key : string) (x : value) :
  is_frozen (literal key x) = Some false.
Proof. reflexivity. Qed.

Lemma promise_is_thenable (o : fate) : is_thenable (VPromise o) = true.
Proof. reflexivity. Qed.

Lemma thenable_function_is_foreign (v : value) :
  is_function v = true -> is_thenable v = true -> foreign_thenable v = true.
Proof.
  intros Hf Ht. unfold foreign_thenable. rewrite Ht.
  destruct v; try discriminate; reflexivity.
Qed.

Lemma not_thenable_not_foreign (v : value) :
  is_thenable v = false -> foreign_thenable v = false.
Proof. intros H. unfold foreign_thenable. now rewrite H. Qed.

Lemma standard_thenable_is_promise (v : value) :
  is_thenable v = true -> foreign_thenable v = false ->
  exists o, v = VPromise o.
Proof.
  unfold foreign_thenable. intros -> H. cbn in H.
  destruct v; try discriminate. now eexists.
Qed.

Section TypeProperties.
Import Types.
Variable extends_function : ty -> bool.

Lemma DeepReadonly_all_readonly (t : ty) :
  all_readonly extends_function (DeepReadonly extends_function t) = true.
Proof.
  induction t as [n | ps r _ _ | fs IH | ro e IH | ts IH] using ty_nested_ind.
  - cbn. destruct (extends_function (TPrim n)) eqn:E; cbn; rewrite ?E; reflexivity.
  - cbn. destruct (extends_function (TFunction ps r)) eqn:E; cbn; rewrite ?E.
    + reflexivity.
    + apply orb_true_r.
  - cbn. destruct (extends_function (TObject fs)) eqn:E; cbn; rewrite ?E.
    + reflexivity.
    + apply orb_true_iff. right. rewrite forallb_forall. intros f Hin.
      apply in_map_iff in Hin. destruct Hin as [g [<- Hg]].
      rewrite Forall_forall in IH. cbn. now apply IH.
  - cbn. destruct (extends_function (TArray ro e)) eqn:E; cbn; rewrite ?E.
    + reflexivity.
    + rewrite IH. apply orb_true_r.
  - cbn. rewrite forallb_forall. intros u Hin.
    apply in_map_iff in Hin. destruct Hin as [g [<- Hg]].
    rewrite Forall_forall in IH. now apply IH.
Qed.

(** The Result type written out, when the test of line 1 fails on the two
    interfaces and on the error type, none of which is a function type. *)
Lemma ResultOrError_unfolded (T E : ty) :
  extends_function (ResultOrErrorResult T) = false ->
  extends_function (ResultOrErrorError E) = false ->
  extends_function (ErrorWithData E) = false ->
  ResultOrError extends_function T E =
  TUnion
    [ TObject [ mkField "result" true false (DeepReadonly extends_function T);
                mkField "error" true true never ];
      TObject [ mkField "result" true true never;
                mkField "error" true false
                  (TObject [ mkField "name" true false tstring;
                             mkField "message" true false tstring;
                             mkField "stack" true true tstring;
                             mkField "data" true true
                               (DeepReadonly extends_function E) ]) ] ].
Proof.
  intros H1 H2 H3.
  unfold ResultOrError, ResultOrErrorResult, ResultOrErrorError, ErrorWithData,
    never, tstring in *.
  cbn [DeepReadonly map readonly_field f_name f_optional f_type].
  rewrite H1, H2. unfold readonly_field.
  cbn [DeepReadonly map f_name f_optional f_type].
  rewrite H3. unfold readonly_field.
  cbn [DeepReadonly map f_name f_optional f_type].
  destruct (extends_function (TPrim "never")),
           (extends_function (TPrim "string")); reflexivity.
Qed.

End TypeProperties.

(* ================================================================== *)
(** ** Properties of the job queue *)

Section JobProperties.
Import JS Jobs.

Lemma pending_true (o : fate) : pending o = true <-> o = Never.
Proof. destruct o; cbn; split; congruence. Qed.

Lemma react_settled (r : reaction) (o : fate) :
  pending o = false -> pending (react r o) = false.
Proof.
  destruct o as [v | e |]; cbn; [| | congruence]; intros _.
  - now destruct (on_fulfilled r).
  - now destruct (on_rejected r).
Qed.

(** The fate of a promise derived by [then] or [catch] is the reaction of
    the corresponding job. *)
Lemma promise_then_react (o : fate) (h : closure) (d : pid) :
  promise_then o h = react (mkReaction (Some h) None d) o.
Proof. now destruct o. Qed.

Lemma promise_catch_react (o : fate) (h : closure) (d : pid) :
  promise_catch o h = react (mkReaction None (Some h) d) o.
Proof. now destruct o. Qed.

Lemma wf_one_pending : wf one_pending.
Proof.
  constructor; cbn; try reflexivity; try contradiction.
  constructor.
Qed.

(** *** Settling a promise *)

Lemma status_settle (q x : pid) (o : fate) (h : heap) :
  status (settle q o h) x = if Nat.eqb x q then o else status h x.
Proof. reflexivity. Qed.

Lemma status_settle_other (q x : pid) (o : fate) (h : heap) :
  x <> q -> status (settle q o h) x = status h x.
Proof.
  intros Hx. rewrite status_settle.
  destruct (Nat.eqb_spec x q); [contradiction | reflexivity].
Qed.

Lemma status_settle_same (q : pid) (o : fate) (h : heap) :
  status (settle q o h) q = o.
Proof. rewrite status_settle. now rewrite Nat.eqb_refl. Qed.

Lemma in_waiting_settle (q : pid) (o : fate) (h : heap) (w : pid * reaction) :
  In w (waiting (settle q o h)) <-> In w (waiting h) /\ fst w <> q.
Proof.
  cbn. rewrite filter_In. unfold waits_for.
  destruct (Nat.eqb_spec (fst w) q); cbn; intuition congruence.
Qed.

Lemma in_queue_settle (q : pid) (o : fate) (h : heap) (j : reaction * fate) :
  In j (queue (settle q o h)) <->
  In j (queue h) \/ (exists r, In (q, r) (waiting h) /\ j = (r, o)).
Proof.
  cbn. rewrite in_app_iff, in_map_iff. split.
  - intros [H | [[s r] [<- Hw]]]; [now left | right].
    apply filter_In in Hw. destruct Hw as [Hw Hq]. unfold waits_for in Hq.
    cbn in Hq. apply Nat.eqb_eq in Hq. subst s. now exists r.
  - intros [H | [r [Hw ->]]]; [now left | right].
    exists (q, r). split; [reflexivity |]. apply filter_In. split; [assumption |].
    unfold waits_for. cbn. apply Nat.eqb_refl.
Qed.

Lemma targets_settle (q : pid) (o : fate) (h : heap) :
  Permutation (targets (settle q o h)) (targets h).
Proof.
  unfold targets. cbn.
  rewrite map_app, map_map. cbn.
  generalize (map (fun j => target (fst j)) (queue h)) as js.
  induction (waiting h) as [| w ws IH]; intros js; cbn.
  - now rewrite app_nil_r.
  - destruct (waits_for q w); cbn.
    + rewrite <- (IH js).
      rewrite !app_assoc. apply Permutation_sym, Permutation_middle.
    + apply perm_skip, IH.
Qed.

Lemma in_targets_settle (q d : pid) (o : fate) (h : heap) :
  In d (targets (settle q o h)) <-> In d (targets h).
Proof.
  split; apply Permutation_in;
    [apply targets_settle | apply Permutation_sym, targets_settle].
Qed.

Lemma wf_settle (q : pid) (o : fate) (h : heap) :
  wf h -> q < next h -> pending o = false -> ~ In q (targets h) ->
  wf (settle q o h).
Proof.
  intros [Hnd Htp Htl Hfr Hw Hq] Hlt Ho Hnt. constructor.
  - eapply Permutation_NoDup; [apply Permutation_sym, targets_settle | exact Hnd].
  - intros d Hd. apply in_targets_settle in Hd.
    rewrite status_settle_other; [now apply Htp |]. congruence.
  - intros d Hd. apply in_targets_settle in Hd. now apply Htl.
  - intros x Hx. cbn [next settle] in Hx.
    rewrite status_settle_other; [now apply Hfr | lia].
  - intros w Hin. apply in_waiting_settle in Hin. destruct Hin as [Hin Hne].
    rewrite status_settle_other; [now apply Hw | assumption].
  - intros j Hin. apply in_queue_settle in Hin.
    destruct Hin as [Hin | [r [_ ->]]]; [now apply Hq | exact Ho].
Qed.

(** *** The steps keep the heap well formed *)

Lemma run_job_cons (h : heap) (r : reaction) (o : fate) (rest : list (reaction * fate)) :
  queue h = (r, o) :: rest ->
  run_job h = settle (target r) (react r o) (without_head h rest).
Proof. intros H. unfold run_job. now rewrite H. Qed.

Lemma targets_cons (h : heap) (r : reaction) (o : fate) (rest : list (reaction * fate)) :
  queue h = (r, o) :: rest ->
  Permutation (targets h) (target r :: targets (without_head h rest)).
Proof.
  intros H. unfold targets. rewrite H. cbn.
  apply Permutation_sym, Permutation_middle.
Qed.

Lemma wf_without_head (h : heap) (r : reaction) (o : fate) (rest : list (reaction * fate)) :
  wf h -> queue h = (r, o) :: rest ->
  wf (without_head h rest)
  /\ ~ In (target r) (targets (without_head h rest))
  /\ target r < next h
  /\ pending (status h (target r)) = true
  /\ pending o = false.
Proof.
  intros [Hnd Htp Htl Hfr Hw Hq] Hh.
  pose proof (targets_cons h r o rest Hh) as Hp.
  assert (Hnd' : NoDup (target r :: targets (without_head h rest)))
    by (eapply Permutation_NoDup; eassumption).
  assert (Hsub : forall d, In d (targets (without_head h rest)) -> In d (targets h)).
  { intros d Hd. eapply Permutation_in; [apply Permutation_sym, Hp |]. now right. }
  assert (Hhead : In (target r) (targets h)).
  { eapply Permutation_in; [apply Permutation_sym, Hp |]. now left. }
  inversion Hnd' as [| x l Hnot Hrest]; subst.
  split; [| split; [| split; [| split]]].
  - constructor; cbn [status waiting queue next without_head]; auto.
    intros j Hj. apply Hq. rewrite Hh. now right.
  - assumption.
  - now apply Htl.
  - now apply Htp.
  - apply (Hq (r, o)). rewrite Hh. now left.
Qed.

Lemma wf_run_job (h : heap) : wf h -> wf (run_job h).
Proof.
  intros Hwf. destruct (queue h) as [| [r o] rest] eqn:Hh.
  - unfold run_job. now rewrite Hh.
  - rewrite (run_job_cons h r o rest Hh).
    destruct (wf_without_head h r o rest Hwf Hh) as [H0 [Hnot [Hlt [_ Ho]]]].
    apply wf_settle; auto. now apply react_settled.
Qed.

Lemma wf_new (h : heap) :
  wf h -> wf (mkHeap (status h) (waiting h) (queue h) (S (next h))).
Proof.
  intros [Hnd Htp Htl Hfr Hw Hq]. constructor; cbn; auto.
  - intros d Hd. specialize (Htl d Hd). lia.
  - intros q Hq'. apply Hfr. lia.
Qed.

Lemma targets_register (src : pid) (onF onR : option closure) (h : heap) :
  Permutation (targets (snd (register src onF onR h))) (next h :: targets h).
Proof.
  unfold register, targets. cbn [snd].
  destruct (pending (status h src)); cbn [status waiting queue next].
  - rewrite map_app. cbn. rewrite <- app_assoc. cbn.
    apply Permutation_sym, Permutation_middle.
  - rewrite map_app. cbn. rewrite app_assoc.
    apply Permutation_sym, Permutation_cons_append.
Qed.

Lemma status_register (src : pid) (onF onR : option closure) (h : heap) :
  status (snd (register src onF onR h)) = status h.
Proof. unfold register. cbn. now destruct (pending (status h src)). Qed.

Lemma next_register (src : pid) (onF onR : option closure) (h : heap) :
  next (snd (register src onF onR h)) = S (next h).
Proof. unfold register. cbn. now destruct (pending (status h src)). Qed.

Lemma in_waiting_register (src : pid) (onF onR : option closure) (h : heap)
    (w : pid * reaction) :
  In w (waiting h) -> In w (waiting (snd (register src onF onR h))).
Proof.
  unfold register. cbn. destruct (pending (status h src)); cbn; [| auto].
  intros H. apply in_or_app. now left.
Qed.

Lemma in_queue_register (src : pid) (onF onR : option closure) (h : heap)
    (j : reaction * fate) :
  In j (queue h) -> In j (queue (snd (register src onF onR h))).
Proof.
  unfold register. cbn. destruct (pending (status h src)); cbn; [auto |].
  intros H. apply in_or_app. now left.
Qed.

(** The reaction that [register] adds. *)
Lemma registered (src : pid) (onF onR : option closure) (h : heap) :
  (pending (status h src) = true /\
   In (src, mkReaction onF onR (next h)) (waiting (snd (register src onF onR h))))
  \/ (pending (status h src) = false /\
      In (mkReaction onF onR (next h), status h src)
         (queue (snd (register src onF onR h)))).
Proof.
  unfold register. cbn. destruct (pending (status h src)); cbn; [left | right];
    (split; [reflexivity |]); apply in_or_app; right; now left.
Qed.

Lemma wf_register (src : pid) (onF onR : option closure) (h : heap) :
  wf h -> wf (snd (register src onF onR h)).
Proof.
  intros Hwf. pose proof Hwf as [Hnd Htp Htl Hfr Hw Hq].
  pose proof (targets_register src onF onR h) as Hp.
  constructor.
  - eapply Permutation_NoDup; [apply Permutation_sym, Hp |].
    constructor; [| assumption]. intros Hin. specialize (Htl _ Hin). lia.
  - intros d Hd. rewrite status_register.
    apply (Permutation_in _ Hp) in Hd. destruct Hd as [<- | Hd]; [| now apply Htp].
    apply Hfr. lia.
  - intros d Hd. rewrite next_register.
    apply (Permutation_in _ Hp) in Hd. destruct Hd as [<- | Hd]; [lia |].
    specialize (Htl d Hd). lia.
  - intros q Hq'. rewrite next_register in Hq'. rewrite status_register.
    apply Hfr. lia.
  - intros w Hin. rewrite status_register. revert Hin.
    unfold register. cbn [snd]. destruct (pending (status h src)) eqn:Hs;
      cbn [waiting]; [| now apply Hw].
    intros Hin. apply in_app_or in Hin. destruct Hin as [Hin | [<- | []]];
      [now apply Hw | exact Hs].
  - intros j. unfold register. cbn [snd]. destruct (pending (status h src)) eqn:Hs;
      cbn [queue]; [now apply Hq |].
    intros Hin. apply in_app_or in Hin. destruct Hin as [Hin | [<- | []]];
      [now apply Hq | exact Hs].
Qed.

Lemma wf_step (h h' : heap) : wf h -> step h h' -> wf h'.
Proof.
  intros Hwf Hstep. destruct Hstep as [q o Hlt Hp Ho Hnot | | src onF onR Hsrc | Hne].
  - now apply wf_settle.
  - now apply wf_new.
  - now apply wf_register.
  - now apply wf_run_job.
Qed.


(** *** The chain of [then_catch] advances *)

Section Chain.
Variables p d1 d2 : pid.

Lemma settled_not_pending (h : heap) (x q : pid) :
  pending (status h x) = false -> pending (status h q) = true -> x <> q.
Proof. intros Hx Hq ->. congruence. Qed.

Lemma target_in_waiting (h : heap) (s : pid) (r : reaction) :
  In (s, r) (waiting h) -> In (target r) (targets h).
Proof.
  intros H. unfold targets. apply in_or_app. left.
  apply in_map_iff. now exists (s, r).
Qed.

Lemma target_in_queue (h : heap) (r : reaction) (o : fate) :
  In (r, o) (queue h) -> In (target r) (targets h).
Proof.
  intros H. unfold targets. apply in_or_app. right.
  apply in_map_iff. now exists (r, o).
Qed.

(** A settlement, by the program or by a job, of a promise that is pending
    and that no waiting reaction or other job derives. *)
Lemma chain_settle (h : heap) (q : pid) (o : fate) :
  wf h -> pending (status h q) = true -> pending o = false ->
  ~ In q (targets h) ->
  chain p d1 d2 h -> chain p d1 d2 (settle q o h).
Proof.
  intros Hwf Hq Ho Hnot Hc.
  destruct Hc as [Hw1 Hw2 | Hj1 Hw2 | Hp H1 Hj2 | Hp H1 H2].
  - assert (Hd1 : d1 <> q).
    { intros ->. apply Hnot. apply (target_in_waiting h p (r1 q) Hw1). }
    destruct (Nat.eq_dec p q) as [-> | Hpq].
    + apply chain_first_job.
      * rewrite status_settle_same. apply in_queue_settle. right. now exists (r1 d1).
      * apply in_waiting_settle. now split.
    + apply chain_waiting; apply in_waiting_settle; now split.
  - assert (Hd1 : d1 <> q).
    { intros ->. apply Hnot. apply (target_in_queue h (r1 q) _ Hj1). }
    assert (Hpq : p <> q).
    { apply (settled_not_pending h); [| assumption].
      apply (wf_queue h Hwf (r1 d1, status h p) Hj1). }
    apply chain_first_job.
    + rewrite status_settle_other by assumption. apply in_queue_settle. now left.
    + apply in_waiting_settle. now split.
  - assert (Hpq : p <> q) by now apply (settled_not_pending h).
    assert (Hd1 : d1 <> q).
    { apply (settled_not_pending h); [| assumption].
      rewrite H1. now apply react_settled. }
    apply chain_second_job.
    + now rewrite status_settle_other.
    + now rewrite !status_settle_other.
    + rewrite status_settle_other by assumption. apply in_queue_settle. now left.
  - assert (Hpq : p <> q) by now apply (settled_not_pending h).
    assert (Hs1 : pending (status h d1) = false)
      by (rewrite H1; now apply react_settled).
    assert (Hd1 : d1 <> q) by now apply (settled_not_pending h).
    assert (Hd2 : d2 <> q).
    { apply (settled_not_pending h); [| assumption].
      rewrite H2. now apply react_settled. }
    apply chain_done; now rewrite !status_settle_other.
Qed.

Lemma in_queue_head (h : heap) (r : reaction) (o : fate)
    (rest : list (reaction * fate)) (j : reaction * fate) :
  queue h = (r, o) :: rest -> In j (queue h) -> j = (r, o) \/ In j rest.
Proof. intros -> [H | H]; auto. Qed.

Lemma chain_run_job (h : heap) :
  wf h -> chain p d1 d2 h -> chain p d1 d2 (run_job h).
Proof.
  intros Hwf Hc. destruct (queue h) as [| [r o] rest] eqn:Hh.
  { unfold run_job. now rewrite Hh. }
  rewrite (run_job_cons h r o rest Hh).
  destruct (wf_without_head h r o rest Hwf Hh) as [H0 [Hnot [Hlt [Hpend Ho]]]].
  assert (Hro : pending (react r o) = false) by now apply react_settled.
  destruct Hc as [Hw1 Hw2 | Hj1 Hw2 | Hp H1 Hj2 | Hp H1 H2].
  - apply chain_settle; auto. now apply chain_waiting.
  - destruct (in_queue_head h r o rest _ Hh Hj1) as [Heq | Hin].
    + (* the job of the first reaction runs *)
      inversion Heq; subst r o. cbn [target r1] in *.
      assert (Hpd : p <> d1).
      { apply (settled_not_pending h); [| assumption].
        apply (wf_queue h Hwf _ Hj1). }
      apply chain_second_job.
      * rewrite status_settle_other by assumption. cbn.
        apply (wf_queue h Hwf _ Hj1).
      * rewrite status_settle_same, status_settle_other by assumption. reflexivity.
      * rewrite status_settle_same. apply in_queue_settle. right. now exists (r2 d2).
    + apply chain_settle; auto. now apply chain_first_job.
  - destruct (in_queue_head h r o rest _ Hh Hj2) as [Heq | Hin].
    + (* the job of the second reaction runs *)
      inversion Heq; subst r o. cbn [target r2] in *.
      assert (Hpd : p <> d2) by now apply (settled_not_pending h).
      assert (Hdd : d1 <> d2).
      { apply (settled_not_pending h); [| assumption].
        rewrite H1. now apply react_settled. }
      apply chain_done.
      * now rewrite status_settle_other.
      * now rewrite !status_settle_other.
      * rewrite status_settle_same, status_settle_other by assumption. reflexivity.
    + apply chain_settle; auto. now apply chain_second_job.
  - apply chain_settle; auto. now apply chain_done.
Qed.

Lemma chain_register (src : pid) (onF onR : option closure) (h : heap) :
  chain p d1 d2 h -> chain p d1 d2 (snd (register src onF onR h)).
Proof.
  intros Hc. destruct Hc as [Hw1 Hw2 | Hj1 Hw2 | Hp H1 Hj2 | Hp H1 H2].
  - apply chain_waiting; now apply in_waiting_register.
  - apply chain_first_job.
    + rewrite status_register. now apply in_queue_register.
    + now apply in_waiting_register.
  - apply chain_second_job; rewrite ?status_register; auto.
    now apply in_queue_register.
  - apply chain_done; rewrite ?status_register; auto.
Qed.

Lemma chain_step (h h' : heap) :
  wf h -> chain p d1 d2 h -> step h h' -> chain p d1 d2 h'.
Proof.
  intros Hwf Hc Hstep.
  destruct Hstep as [q o Hlt Hp Ho Hnot | | src onF onR Hsrc | Hne].
  - now apply chain_settle.
  - destruct Hc; [apply chain_waiting | apply chain_first_job
                  | apply chain_second_job | apply chain_done]; assumption.
  - now apply chain_register.
  - now apply chain_run_job.
Qed.

Lemma chain_steps (h h' : heap) :
  wf h -> chain p d1 d2 h -> steps h h' -> wf h' /\ chain p d1 d2 h'.
Proof.
  intros Hwf Hc Hsteps. induction Hsteps as [h | h h1 h2 Hstep _ IH].
  - now split.
  - apply IH.
    + now apply (wf_step h).
    + now apply (chain_step h).
Qed.

(** Until its job has run the promise returned by the chain is pending,
    and then it is fulfilled: it never rejects. *)
Lemma chain_never_rejects (h : heap) (x : value) :
  wf h -> chain p d1 d2 h -> status h d2 <> Rejects x.
Proof.
  intros Hwf Hc Hx.
  assert (Hpend : In d2 (targets h) -> False).
  { intros Hin. pose proof (wf_target_pending h Hwf d2 Hin) as H.
    rewrite Hx in H. discriminate. }
  destruct Hc as [Hw1 Hw2 | Hj1 Hw2 | Hp H1 Hj2 | Hp H1 H2].
  - apply Hpend, (target_in_waiting h d1 (r2 d2) Hw2).
  - apply Hpend, (target_in_waiting h d1 (r2 d2) Hw2).
  - apply Hpend, (target_in_queue h (r2 d2) _ Hj2).
  - rewrite H2, H1 in Hx. destruct (status h p); cbn in *; discriminate.
Qed.

(** When no job is left the promise returned by the chain is settled as
    the settlement of [p] says, and is pending while [p] is. *)
Lemma chain_quiescent (h : heap) :
  wf h -> chain p d1 d2 h -> queue h = [] ->
  status h d2 = promise_catch (promise_then (status h p) WrapResult) WrapError.
Proof.
  intros Hwf Hc Hq. destruct Hc as [Hw1 Hw2 | Hj1 Hw2 | Hp H1 Hj2 | Hp H1 H2].
  - assert (Hp : status h p = Never).
    { apply pending_true. apply (wf_waiting h Hwf (p, r1 d1) Hw1). }
    assert (Hd : status h d2 = Never).
    { apply pending_true. apply (wf_target_pending h Hwf).
      apply (target_in_waiting h d1 (r2 d2) Hw2). }
    now rewrite Hp, Hd.
  - rewrite Hq in Hj1. contradiction.
  - rewrite Hq in Hj2. contradiction.
  - rewrite H2, H1.
    rewrite (promise_then_react _ _ d1), (promise_catch_react _ _ d2). reflexivity.
Qed.

End Chain.

(** *** The chain that [then_catch] registers *)

Lemma then_catch_chain (p : pid) (h : heap) :
  wf h -> p < next h ->
  fst (then_catch p h) = S (next h)
  /\ wf (snd (then_catch p h))
  /\ chain p (next h) (S (next h)) (snd (then_catch p h)).
Proof.
  intros Hwf Hp. unfold then_catch.
  destruct (register p (Some WrapResult) None h) as [d1 h1] eqn:E1.
  assert (Ed1 : d1 = next h) by (unfold register in E1; now inversion E1).
  assert (Eh1 : h1 = snd (register p (Some WrapResult) None h)) by now rewrite E1.
  assert (Hwf1 : wf h1) by (rewrite Eh1; now apply wf_register).
  assert (Hn1 : next h1 = S (next h)) by (rewrite Eh1; apply next_register).
  assert (Hd1 : pending (status h1 d1) = true).
  { rewrite Eh1, status_register, Ed1. apply (wf_fresh h Hwf). lia. }
  split; [cbn; now rewrite Hn1 | split; [now apply wf_register |]].
  subst d1.
  destruct (registered (next h) None (Some WrapError) h1) as [[_ H2] | [H2 _]];
    [| congruence].
  rewrite Hn1 in H2. fold (r2 (S (next h))) in H2.
  destruct (registered p (Some WrapResult) None h) as [[_ H1] | [Hs H1]];
    rewrite <- Eh1 in H1; fold (r1 (next h)) in H1.
  - apply chain_waiting; [now apply in_waiting_register | exact H2].
  - apply chain_first_job; [| exact H2].
    rewrite status_register. apply in_queue_register.
    replace (status h1 p) with (status h p); [exact H1 |].
    now rewrite Eh1, status_register.
Qed.

(** *** Draining the queue *)

Lemma run_job_idle (h : heap) : queue h = [] -> run_job h = h.
Proof. intros H. unfold run_job. now rewrite H. Qed.

Lemma drain_idle (n : nat) (h : heap) : queue h = [] -> drain n h = h.
Proof.
  induction n as [| n IH]; intros H; cbn; [reflexivity |].
  rewrite (run_job_idle h H). now apply IH.
Qed.

Lemma filter_split_length {A} (f : A -> bool) (l : list A) :
  length (filter (fun x => negb (f x)) l) + length (filter f l) = length l.
Proof.
  induction l as [| a l IH]; cbn; [reflexivity |].
  destruct (f a); cbn; lia.
Qed.

Lemma backlog_run_job (h : heap) :
  queue h <> [] -> S (backlog (run_job h)) = backlog h.
Proof.
  intros Hne. destruct (queue h) as [| [r o] rest] eqn:Hh; [contradiction |].
  rewrite (run_job_cons h r o rest Hh).
  unfold backlog. rewrite Hh. cbn.
  rewrite length_app, length_map.
  pose proof (filter_split_length (waits_for (target r)) (waiting h)). lia.
Qed.

Lemma drain_empties (n : nat) (h : heap) :
  backlog h <= n -> queue (drain n h) = [].
Proof.
  revert h. induction n as [| n IH]; intros h Hb.
  - cbn. unfold backlog in Hb. destruct (queue h); [reflexivity | cbn in Hb; lia].
  - cbn. destruct (queue h) as [| j rest] eqn:Hh.
    + rewrite (run_job_idle h Hh), (drain_idle n h Hh). exact Hh.
    + apply IH. assert (Hne : queue h <> []) by (rewrite Hh; discriminate).
      pose proof (backlog_run_job h Hne). lia.
Qed.

Lemma drain_steps (n : nat) (h : heap) : steps h (drain n h).
Proof.
  revert h. induction n as [| n IH]; intros h; cbn.
  - apply steps_refl.
  - destruct (queue h) as [| j rest] eqn:Hh.
    + rewrite (run_job_idle h Hh). apply IH.
    + eapply steps_cons; [| apply IH].
      apply step_job. rewrite Hh. discriminate.
Qed.

Lemma steps_trans (a b c : heap) : steps a b -> steps b c -> steps a c.
Proof.
  intros Hab Hbc. induction Hab as [| x y z Hxy _ IH]; [assumption |].
  eapply steps_cons; [exact Hxy | now apply IH].
Qed.

(** A settled promise keeps its settlement. *)
Lemma status_step (h h' : heap) (x : pid) :
  wf h -> pending (status h x) = false -> step h h' -> status h' x = status h x.
Proof.
  intros Hwf Hx Hstep.
  destruct Hstep as [q o Hlt Hp Ho Hnot | | src onF onR Hsrc | Hne].
  - apply status_settle_other. intros ->. congruence.
  - reflexivity.
  - now rewrite status_register.
  - destruct (queue h) as [| [r o] rest] eqn:Hh; [contradiction |].
    rewrite (run_job_cons h r o rest Hh).
    destruct (wf_without_head h r o rest Hwf Hh) as [_ [_ [_ [Hpend _]]]].
    rewrite status_settle_other; [reflexivity |]. intros ->. congruence.
Qed.

Lemma status_steps (h h' : heap) (x : pid) :
  wf h -> pending (status h x) = false -> steps h h' -> status h' x = status h x.
Proof.
  intros Hwf Hx Hsteps. induction Hsteps as [h | h h1 h2 Hstep _ IH]; [reflexivity |].
  pose proof (status_step h h1 x Hwf Hx Hstep) as H1.
  rewrite IH; [exact H1 | now apply (wf_step h) | now rewrite H1].
Qed.

(** The promise that [then_catch] returns for [p]: whatever the program does
    next, once [p] has settled as [o] the jobs left settle the returned
    promise as [promise_catch (promise_then o WrapResult) WrapError]. *)
Theorem then_catch_settles (p : pid) (h h' : heap) (o : fate) :
  wf h -> p < next h ->
  steps (snd (then_catch p h)) h' ->
  status h' p = o -> pending o = false ->
  steps h' (drain (backlog h') h')
  /\ queue (drain (backlog h') h') = []
  /\ status (drain (backlog h') h') (fst (then_catch p h))
     = promise_catch (promise_then o WrapResult) WrapError.
Proof.
  intros Hwf Hp Hsteps Hs Ho.
  destruct (then_catch_chain p h Hwf Hp) as [Hd2 [Hwf2 Hc2]].
  destruct (chain_steps p (next h) (S (next h)) _ h' Hwf2 Hc2 Hsteps) as [Hwf' Hc'].
  pose proof (drain_steps (backlog h') h') as Hdr.
  destruct (chain_steps p (next h) (S (next h)) _ _ Hwf' Hc' Hdr) as [Hwf'' Hc''].
  assert (Hq : queue (drain (backlog h') h') = []) by now apply drain_empties.
  split; [exact Hdr | split; [exact Hq |]].
  rewrite Hd2.
  rewrite (chain_quiescent p (next h) (S (next h)) _ Hwf'' Hc'' Hq).
  rewrite (status_steps h' _ p Hwf'); [now rewrite Hs | now rewrite Hs | exact Hdr].
Qed.

(** At no time has the promise that [then_catch] returns rejected. *)
Theorem then_catch_never_rejects (p : pid) (h h' : heap) (x : value) :
  wf h -> p < next h ->
  steps (snd (then_catch p h)) h' ->
  status h' (fst (then_catch p h)) <> Rejects x.
Proof.
  intros Hwf Hp Hsteps.
  destruct (then_catch_chain p h Hwf Hp) as [Hd2 [Hwf2 Hc2]].
  destruct (chain_steps p (next h) (S (next h)) _ h' Hwf2 Hc2 Hsteps) as [Hwf' Hc'].
  rewrite Hd2. now apply (chain_never_rejects p (next h) (S (next h))).
Qed.

End JobProperties.

(* ================================================================== *)
(** ** Properties of [$try] *)

Section TryProperties.

Variable World : Type.
Variable run : fid -> value -> list value -> World -> completion value * World.

Local Notation state := (Try.state World).
Local Notation M := (Try.M World).
Local Notation invoke := (Try.invoke World run).
Local Notation call_method := (Try.call_method World run).
Local Notation then_catch := (Try.then_catch World run).
Local Notation dollar_try := (Try.dollar_try World run).
Local Notation standard := (Try.standard World run).
Local Notation framed := (@Try.framed World _).

(** *** The three branches of [$try] *)

Lemma dollar_try_thenable (arg : value) (st : state) :
  is_thenable arg = true -> dollar_try arg st = then_catch arg st.
Proof. intros H. unfold Try.dollar_try. now rewrite H. Qed.

Lemma dollar_try_mismatch (arg : value) (st : state) :
  is_thenable arg = false -> is_function arg = false ->
  dollar_try arg st = (Throw mismatch_error, st).
Proof. intros H1 H2. unfold Try.dollar_try. now rewrite H1, H2. Qed.

Lemma dollar_try_callable (arg : value) (st : state) :
  is_thenable arg = false -> is_function arg = true ->
  dollar_try arg st =
  match invoke arg st with
  | (Throw e, st1) => (Normal (literal "error" e), st1)
  | (Normal v, st1) =>
      if is_thenable v then
        match then_catch v st1 with
        | (Throw e, st2) => (Normal (literal "error" e), st2)
        | r => r
        end
      else (Normal (literal "result" v), st1)
  end.
Proof.
  intros H1 H2. unfold Try.dollar_try. rewrite H1, H2. cbn [negb].
  unfold try_catch, bind at 1.
  destruct (invoke arg st) as [[v | e] st1]; [| reflexivity].
  destruct (is_thenable v); [| reflexivity].
  destruct (then_catch v st1) as [[v' | e'] st2]; reflexivity.
Qed.

(** On a promise, [then] and [catch] are the built-in members. *)
Lemma then_catch_promise (o : fate) (st : state) :
  then_catch (VPromise o) st =
  (Normal (VPromise (promise_catch (promise_then o WrapResult) WrapError)),
   mkState (world st)
     (trace st ++ [EvMethod (VPromise o) "then" WrapResult;
                   EvMethod (VPromise (promise_then o WrapResult)) "catch" WrapError])).
Proof.
  unfold Try.then_catch, Try.call_method, bind, log, ret. cbn.
  now rewrite <- app_assoc.
Qed.

(** *** The calls [$try] makes *)

Lemma invoke_trace (fn : value) (st : state) :
  trace (snd (invoke fn st)) = trace st ++ [EvInvoke fn].
Proof.
  unfold Try.invoke, bind, log, call_user, ret, throw. cbn.
  destruct fn as [ | | | | | | k ps ext | h | m | o]; try reflexivity.
  destruct k; try reflexivity. cbn.
  destruct (run f VUndefined [] (world st)) as [c w]. now destruct c.
Qed.

Lemma call_method_trace (recv : value) (name : string) (h : closure) (st : state) :
  trace (snd (call_method recv name h st)) = trace st ++ [EvMethod recv name h].
Proof.
  unfold Try.call_method, bind, log, call_user, ret, throw. cbn.
  destruct recv as [ | | | | | | k ps ext | h' | m | o]; try reflexivity.
  - destruct (get (VObj k ps ext) name) as [ | | | | | | k' ps' ext' | h' | m | o];
      try reflexivity.
    destruct k'; try reflexivity. cbn.
    destruct (run f (VObj k ps ext) [VClosure h] (world st)) as [c w]. now destruct c.
  - destruct (get (VPromise o) name) as [ | | | | | | k' ps' ext' | h' | m | o'];
      try reflexivity.
    destruct k'; try reflexivity. cbn.
    destruct (run f (VPromise o) [VClosure h] (world st)) as [c w]. now destruct c.
Qed.

Lemma then_catch_trace (x : value) (st : state) :
  exists rest,
    trace (snd (then_catch x st)) = trace st ++ EvMethod x "then" WrapResult :: rest
    /\ invocations rest = 0.
Proof.
  unfold Try.then_catch, bind.
  pose proof (call_method_trace x "then" WrapResult st) as H1.
  destruct (call_method x "then" WrapResult st) as [[p | e] st1];
    cbn [fst snd] in H1 |- *.
  - pose proof (call_method_trace p "catch" WrapError st1) as H2.
    exists [EvMethod p "catch" WrapError]. split; [| reflexivity].
    rewrite H2, H1, <- app_assoc. reflexivity.
  - exists []. split; [assumption | reflexivity].
Qed.

Lemma invocations_app (a b : list event) :
  invocations (a ++ b) = invocations a + invocations b.
Proof. unfold invocations. now rewrite filter_app, length_app. Qed.

(** *** [$try] keeps nothing between calls *)

Lemma framed_ret {A} (a : A) : framed (ret World a).
Proof. intros w tr. unfold ret. cbn. now rewrite app_nil_r. Qed.

Lemma framed_throw {A} (e : value) : framed (@throw World A e).
Proof. intros w tr. unfold throw. cbn. now rewrite app_nil_r. Qed.

Lemma framed_log (e : event) : framed (log World e).
Proof. intros w tr. reflexivity. Qed.

Lemma framed_call_user (f : fid) (this : value) (args : list value) :
  framed (call_user World run f this args).
Proof.
  intros w tr. unfold call_user. cbn.
  destruct (run f this args w) as [c w']. cbn. now rewrite app_nil_r.
Qed.

Lemma framed_bind {A B} (m : M A) (k : A -> M B) :
  framed m -> (forall a, framed (k a)) -> framed (bind World m k).
Proof.
  intros Hm Hk w tr. unfold bind. rewrite (Hm w tr).
  destruct (m (mkState w [])) as [[a | e] [w1 t1]]; cbn.
  - rewrite (Hk a w1 (tr ++ t1)), (Hk a w1 t1).
    cbn. now rewrite app_assoc.
  - reflexivity.
Qed.

Lemma framed_try_catch {A} (m : M A) (handler : value -> M A) :
  framed m -> (forall e, framed (handler e)) -> framed (try_catch World m handler).
Proof.
  intros Hm Hk w tr. unfold try_catch. rewrite (Hm w tr).
  destruct (m (mkState w [])) as [[a | e] [w1 t1]]; cbn.
  - reflexivity.
  - rewrite (Hk e w1 (tr ++ t1)), (Hk e w1 t1).
    cbn. now rewrite app_assoc.
Qed.

Lemma framed_invoke (fn : value) : framed (invoke fn).
Proof.
  unfold Try.invoke. apply framed_bind; [apply framed_log |]. intros _.
  destruct fn as [ | | | | | | k ps ext | h | m | o];
    try apply framed_throw; try apply framed_ret.
  destruct k; try apply framed_throw. apply framed_call_user.
Qed.

Lemma framed_call_method (recv : value) (name : string) (h : closure) :
  framed (call_method recv name h).
Proof.
  unfold Try.call_method. apply framed_bind; [apply framed_log |]. intros _.
  destruct recv as [ | | | | | | k ps ext | h' | m | o]; try apply framed_throw;
    match goal with
    | |- framed (match get ?r name with _ => _ end) =>
        destruct (get r name) as [ | | | | | | k' ps' ext' | h'' | m' | o'];
        try apply framed_throw; try apply framed_ret;
        try (destruct k'; try apply framed_throw; apply framed_call_user)
    end.
Qed.

Lemma framed_then_catch (x : value) : framed (then_catch x).
Proof.
  unfold Try.then_catch. apply framed_bind; intros; apply framed_call_method.
Qed.

Lemma framed_dollar_try (arg : value) : framed (dollar_try arg).
Proof.
  unfold Try.dollar_try.
  destruct (is_thenable arg); [apply framed_then_catch |].
  destruct (negb (is_function arg)); [apply framed_throw |].
  apply framed_try_catch.
  - apply framed_bind; [apply framed_invoke |]. intros v.
    destruct (is_thenable v); [apply framed_then_catch | apply framed_ret].
  - intros e. apply framed_ret.
Qed.

(** *** The paths of a standard run *)

Lemma dollar_try_promise (o : fate) (st : state) :
  dollar_try (VPromise o) st =
  (Normal (VPromise (promise_catch (promise_then o WrapResult) WrapError)),
   mkState (world st)
     (trace st ++ [EvMethod (VPromise o) "then" WrapResult;
                   EvMethod (VPromise (promise_then o WrapResult)) "catch" WrapError])).
Proof.
  rewrite dollar_try_thenable by reflexivity. apply then_catch_promise.
Qed.

Lemma dollar_try_throws (fn e : value) (st st1 : state) :
  is_function fn = true -> is_thenable fn = false ->
  invoke fn st = (Throw e, st1) ->
  dollar_try fn st = (Normal (literal "error" e), st1).
Proof.
  intros Hf Ht Hi. rewrite dollar_try_callable by assumption. now rewrite Hi.
Qed.

Lemma dollar_try_returns (fn v : value) (st st1 : state) :
  is_function fn = true -> is_thenable fn = false ->
  invoke fn st = (Normal v, st1) -> is_thenable v = false ->
  dollar_try fn st = (Normal (literal "result" v), st1).
Proof.
  intros Hf Ht Hi Hv. rewrite dollar_try_callable by assumption.
  now rewrite Hi, Hv.
Qed.

Lemma dollar_try_returns_promise (fn : value) (o : fate) (st st1 : state) :
  is_function fn = true -> is_thenable fn = false ->
  invoke fn st = (Normal (VPromise o), st1) ->
  dollar_try fn st =
  (Normal (VPromise (promise_catch (promise_then o WrapResult) WrapError)),
   mkState (world st1)
     (trace st1 ++ [EvMethod (VPromise o) "then" WrapResult;
                    EvMethod (VPromise (promise_then o WrapResult)) "catch" WrapError])).
Proof.
  intros Hf Ht Hi. rewrite dollar_try_callable by assumption.
  rewrite Hi, promise_is_thenable. now rewrite then_catch_promise.
Qed.

Lemma chain_delivers (o : fate) (r : value) :
  delivered (VPromise (promise_catch (promise_then o WrapResult) WrapError)) = Some r ->
  (exists x, o = Fulfills x /\ r = literal "result" x) \/
  (exists e, o = Rejects e /\ r = literal "error" e).
Proof.
  destruct o as [x | e |]; cbn; intros H; inversion H; subst; eauto.
Qed.

(** In a standard run [$try] returns no promise that rejects. *)
Lemma dollar_try_never_rejects (arg x : value) (st st' : state) :
  dollar_try arg st = (Normal (VPromise (Rejects x)), st') ->
  standard arg st = true ->
  False.
Proof.
  intros Hrun Hstd.
  unfold Try.standard in Hstd. apply andb_true_iff in Hstd.
  destruct Hstd as [Harg Hret]. apply negb_true_iff in Harg.
  destruct (is_thenable arg) eqn:Ht.
  - destruct (standard_thenable_is_promise arg Ht Harg) as [o ->].
    rewrite dollar_try_promise in Hrun. inversion Hrun as [[H0 H1]].
    destruct o; discriminate.
  - destruct (is_function arg) eqn:Hf.
    + rewrite dollar_try_callable in Hrun by assumption.
      destruct (invoke arg st) as [[y | e] st1]; [| discriminate].
      apply negb_true_iff in Hret.
      destruct (is_thenable y) eqn:Hy; [| discriminate].
      destruct (standard_thenable_is_promise y Hy Hret) as [o ->].
      rewrite then_catch_promise in Hrun. inversion Hrun as [[H0 H1]].
      destruct o; discriminate.
    + rewrite dollar_try_mismatch in Hrun by assumption. discriminate.
Qed.

(** In a standard run every Result that reaches the caller is one of the
    object literals [{ result: x }] and [{ error: e }] of [$try]. *)
Lemma dollar_try_delivers (arg : value) (st st' : state) (v r : value) :
  dollar_try arg st = (Normal v, st') ->
  standard arg st = true ->
  delivered v = Some r ->
  (exists x, r = literal "result" x) \/ (exists e, r = literal "error" e).
Proof.
  intros Hrun Hstd Hdel.
  unfold Try.standard in Hstd. apply andb_true_iff in Hstd.
  destruct Hstd as [Harg Hret]. apply negb_true_iff in Harg.
  destruct (is_thenable arg) eqn:Ht.
  - destruct (standard_thenable_is_promise arg Ht Harg) as [o ->].
    rewrite dollar_try_promise in Hrun. inversion Hrun; subst.
    destruct (chain_delivers o r Hdel) as [[x [_ ->]] | [e [_ ->]]]; eauto.
  - destruct (is_function arg) eqn:Hf.
    + rewrite dollar_try_callable in Hrun by assumption.
      destruct (invoke arg st) as [[x | e] st1].
      * apply negb_true_iff in Hret.
        destruct (is_thenable x) eqn:Hx.
        -- destruct (standard_thenable_is_promise x Hx Hret) as [o ->].
           rewrite then_catch_promise in Hrun. inversion Hrun; subst.
           destruct (chain_delivers o r Hdel) as [[y [_ ->]] | [e [_ ->]]]; eauto.
        -- inversion Hrun; subst. cbn in Hdel. inversion Hdel; eauto.
      * inversion Hrun; subst. cbn in Hdel. inversion Hdel; eauto.
    + rewrite dollar_try_mismatch in Hrun by assumption. discriminate.
Qed.

(** *** Capture of a synchronous failure *)

(** C1, as amended. For every callable [fn] that is not awaitable-shaped
    (exposes no callable [then] member) and raises a value [e], Error or
    not, when invoked, [$try(fn)] returns synchronously a failure Result:
    an object that is neither a promise nor a thenable, whose failure slot
    is [e] and whose value slot is absent. The raised value does not leave
    [$try] as an exception, and the final state is the one the call of [fn]
    left. *)
Theorem C1_sync_failure (fn e : value) (st st1 : state) :
  is_function fn = true ->
  is_thenable fn = false ->
  invoke fn st = (Throw e, st1) ->
  dollar_try fn st = (Normal (literal "error" e), st1)
  /\ is_promise (literal "error" e) = false
  /\ is_thenable (literal "error" e) = false
  /\ get (literal "error" e) "error" = e
  /\ has_own (literal "error" e) "result" = false.
Proof.
  intros Hf Ht Hi. split; [now apply dollar_try_throws |].
  repeat split.
Qed.

(** *** Capture of a rejection *)

(** C2, as amended. For every promise that eventually rejects with reason
    [e], passed to [$try] directly or returned by a wrapped callable that is
    not itself awaitable-shaped, [$try] returns a promise that fulfils with
    the failure Result [{ error: e }]. Whatever a promise does, passed
    directly or returned by such a callable, the promise [$try] returns for
    it never rejects. On the promise heap: at no later time has the
    returned promise rejected, and once the wrapped promise has rejected
    with [e] the jobs left fulfil the returned promise with [{ error: e }].
    Wrapping a promise directly leaves the caller's world as it was;
    wrapping a callable leaves the world the call left. *)
Theorem C2_async_failure (e : value) (st : state) :
  (exists st',
      dollar_try (VPromise (Rejects e)) st =
        (Normal (VPromise (Fulfills (literal "error" e))), st')
      /\ world st' = world st)
  /\ (forall (fn : value) (st1 : state),
        is_function fn = true ->
        is_thenable fn = false ->
        invoke fn st = (Normal (VPromise (Rejects e)), st1) ->
        exists st2,
          dollar_try fn st =
            (Normal (VPromise (Fulfills (literal "error" e))), st2)
          /\ world st2 = world st1)
  /\ (forall (arg v x : value) (st' : state),
        dollar_try arg st = (Normal v, st') ->
        standard arg st = true ->
        v <> VPromise (Rejects x))
  /\ (forall (h h' : Jobs.heap) (p : Jobs.pid) (x : value),
        Jobs.wf h -> p < Jobs.next h ->
        Jobs.steps (snd (Jobs.then_catch p h)) h' ->
        Jobs.status h' (fst (Jobs.then_catch p h)) <> Rejects x
        /\ (Jobs.status h' p = Rejects e ->
            Jobs.status (Jobs.drain (Jobs.backlog h') h') (fst (Jobs.then_catch p h))
            = Fulfills (literal "error" e))).
Proof.
  split; [| split; [| split]].
  - rewrite dollar_try_promise. eexists. split; reflexivity.
  - intros fn st1 Hf Ht Hi.
    rewrite (dollar_try_returns_promise fn (Rejects e) st st1) by assumption.
    eexists. split; reflexivity.
  - intros arg v x st' Hrun Hstd ->.
    now apply (dollar_try_never_rejects arg x st st').
  - intros h h' p x Hwf Hp Hsteps. split.
    + now apply then_catch_never_rejects.
    + intros Hs.
      now destruct (then_catch_settles p h h' (Rejects e) Hwf Hp Hsteps Hs eq_refl)
        as [_ [_ ->]].
Qed.

(** *** Success *)

(** C3, as amended. For every computation that completes successfully with
    value [v], [$try] yields the success Result [{ result: v }]:
    synchronously when a wrapped callable that is not itself
    awaitable-shaped returns the plain (not awaitable-shaped) value [v],
    and through the returned promise when [v] is the fulfilment value of a
    promise passed directly or returned by such a callable. On the promise
    heap: once the wrapped promise has fulfilled with [v], the jobs left
    fulfil the returned promise with [{ result: v }]. *)
Theorem C3_success (v : value) (st : state) :
  (forall (fn : value) (st1 : state),
      is_function fn = true ->
      is_thenable fn = false ->
      invoke fn st = (Normal v, st1) ->
      is_thenable v = false ->
      dollar_try fn st = (Normal (literal "result" v), st1)
      /\ is_promise (literal "result" v) = false)
  /\ (exists st',
        dollar_try (VPromise (Fulfills v)) st =
          (Normal (VPromise (Fulfills (literal "result" v))), st'))
  /\ (forall (fn : value) (st1 : state),
        is_function fn = true ->
        is_thenable fn = false ->
        invoke fn st = (Normal (VPromise (Fulfills v)), st1) ->
        exists st2,
          dollar_try fn st =
            (Normal (VPromise (Fulfills (literal "result" v))), st2))
  /\ (forall (h h' : Jobs.heap) (p : Jobs.pid),
        Jobs.wf h -> p < Jobs.next h ->
        Jobs.steps (snd (Jobs.then_catch p h)) h' ->
        Jobs.status h' p = Fulfills v ->
        Jobs.status (Jobs.drain (Jobs.backlog h') h') (fst (Jobs.then_catch p h))
        = Fulfills (literal "result" v))
  /\ get (literal "result" v) "result" = v
  /\ has_own (literal "result" v) "error" = false.
Proof.
  split; [| split; [| split; [| split; [| split]]]].
  - intros fn st1 Hf Ht Hi Hv. split; [| reflexivity].
    now apply dollar_try_returns.
  - rewrite dollar_try_promise. eexists. reflexivity.
  - intros fn st1 Hf Ht Hi.
    rewrite (dollar_try_returns_promise fn (Fulfills v) st st1) by assumption.
    eexists. reflexivity.
  - intros h h' p Hwf Hp Hsteps Hs.
    now destruct (then_catch_settles p h h' (Fulfills v) Hwf Hp Hsteps Hs eq_refl)
      as [_ [_ ->]].
  - reflexivity.
  - reflexivity.
Qed.

(** *** The Results that [$try] builds *)

Lemma built_result (x : value) : built (literal "result" x).
Proof. now exists WrapResult, x. Qed.

Lemma built_error (e : value) : built (literal "error" e).
Proof. now exists WrapError, e. Qed.

Lemma built_cases (r : value) :
  built r -> (exists x, r = literal "result" x) \/ (exists e, r = literal "error" e).
Proof. intros [[] [x ->]]; [left | right]; now exists x. Qed.

(** What [$try] returns is a Result it has built, or the value of the
    [then]/[catch] chain on the awaitable-shaped value that is its input or
    that the callable returned. *)
Lemma dollar_try_accounts (arg v : value) (st st' : state) :
  dollar_try arg st = (Normal v, st') ->
  built v
  \/ exists (x : value) (st1 : state),
       is_thenable x = true
       /\ then_catch x st1 = (Normal v, st')
       /\ ((x = arg /\ st1 = st)
           \/ (is_thenable arg = false /\ invoke arg st = (Normal x, st1))).
Proof.
  intros Hrun. destruct (is_thenable arg) eqn:Ht.
  - right. exists arg, st. rewrite dollar_try_thenable in Hrun by assumption.
    repeat split; auto.
  - destruct (is_function arg) eqn:Hf.
    + rewrite dollar_try_callable in Hrun by assumption.
      destruct (invoke arg st) as [[x | e] st1] eqn:Hi.
      * destruct (is_thenable x) eqn:Hx.
        -- destruct (then_catch x st1) as [[y | e] st2] eqn:Hc.
           ++ inversion Hrun; subst. right. exists x, st1. repeat split; auto.
           ++ inversion Hrun; subst. left. apply built_error.
        -- inversion Hrun; subst. left. apply built_result.
      * inversion Hrun; subst. left. apply built_error.
    + rewrite dollar_try_mismatch in Hrun by assumption. discriminate.
Qed.

(** The chain on a promise delivers only Results that [$try] has built. *)
Lemma then_catch_promise_built (o : fate) (v r : value) (st st' : state) :
  then_catch (VPromise o) st = (Normal v, st') ->
  delivered v = Some r ->
  built r.
Proof.
  intros Hc Hdel. rewrite then_catch_promise in Hc. inversion Hc; subst.
  destruct (chain_delivers o r Hdel) as [[x [_ ->]] | [e [_ ->]]];
    [apply built_result | apply built_error].
Qed.

Lemma dollar_try_standard_built (arg v r : value) (st st' : state) :
  dollar_try arg st = (Normal v, st') ->
  standard arg st = true ->
  delivered v = Some r ->
  built r.
Proof.
  intros Hrun Hstd Hdel.
  destruct (dollar_try_delivers arg st st' v r Hrun Hstd Hdel) as [[x ->] | [e ->]];
    [apply built_result | apply built_error].
Qed.

(** *** Read-only Results *)

(** C4, as amended. Every property of the Result type, including the
    properties of nested object and array types reachable from either slot
    (the descent stops at function types), is declared [readonly] by
    [DeepReadonly]: a contract of the type checker. At runtime every Result
    that [$try] builds is an ordinary object literal with one own property:
    it is not frozen, and an assignment to its slot by code outside the
    type checker takes place and is observed afterwards. The Results that
    [$try] builds are all it returns, except that it returns as it is the
    value of the [then]/[catch] chain on an awaitable-shaped value: for a
    promise that chain delivers only Results that [$try] has built, and so
    does every run that meets no thenable other than a promise; what a
    [then] or [catch] member written by the caller hands back is neither
    frozen nor checked by [$try]. *)
Theorem C4_readonly_is_static :
  (forall (extends_function : Types.ty -> bool) (T E : Types.ty),
      Types.all_readonly extends_function
        (Types.ResultOrError extends_function T E) = true)
  /\ (forall (extends_function : Types.ty -> bool) (T E : Types.ty),
        extends_function (Types.ResultOrErrorResult T) = false ->
        extends_function (Types.ResultOrErrorError E) = false ->
        extends_function (Types.ErrorWithData E) = false ->
        exists success failure err,
          Types.ResultOrError extends_function T E = Types.TUnion [success; failure]
          /\ Types.member success "result"
             = Some (Types.mkField "result" true false
                       (Types.DeepReadonly extends_function T))
          /\ Types.member failure "error" = Some (Types.mkField "error" true false err)
          /\ Types.member err "message"
             = Some (Types.mkField "message" true false Types.tstring)
          /\ Types.member err "data"
             = Some (Types.mkField "data" true true
                       (Types.DeepReadonly extends_function E)))
  /\ (forall (r : value),
        built r ->
        exists (key : string) (x : value),
          r = literal key x
          /\ is_frozen r = Some false
          /\ forall y, assign r key y = Some (literal key y, true)
                       /\ get (literal key y) key = y)
  /\ (forall (arg v : value) (st st' : state),
        dollar_try arg st = (Normal v, st') ->
        built v
        \/ exists (x : value) (st1 : state),
             is_thenable x = true
             /\ then_catch x st1 = (Normal v, st')
             /\ ((x = arg /\ st1 = st)
                 \/ (is_thenable arg = false /\ invoke arg st = (Normal x, st1))))
  /\ (forall (o : fate) (v r : value) (st st' : state),
        then_catch (VPromise o) st = (Normal v, st') ->
        delivered v = Some r ->
        built r)
  /\ (forall (arg v r : value) (st st' : state),
        dollar_try arg st = (Normal v, st') ->
        standard arg st = true ->
        delivered v = Some r ->
        built r).
Proof.
  split; [| split; [| split; [| split; [| split]]]].
  - intros ext T E. apply DeepReadonly_all_readonly.
  - intros ext T E H1 H2 H3.
    rewrite (ResultOrError_unfolded ext T E H1 H2 H3).
    do 3 eexists. split; [reflexivity |]. repeat split.
  - intros r Hb. destruct (built_cases r Hb) as [[x ->] | [e ->]].
    + exists "result", x. repeat split.
    + exists "error", e. repeat split.
  - apply dollar_try_accounts.
  - apply then_catch_promise_built.
  - apply dollar_try_standard_built.
Qed.

(** *** Narrowing *)

(** C5, as amended. For every Result that [$try] builds: if the failure
    slot is truthy, the value slot is absent. A success Result has a falsy
    (absent) failure slot and a populated value slot, which holds the value
    of the computation. A failure Result has no value slot, and its failure
    slot is as truthy as the captured payload: testing the failure slot
    distinguishes the two variants exactly when the captured payload is
    truthy. The Results that [$try] builds are all it returns, except that
    it returns as it is the value of the [then]/[catch] chain on an
    awaitable-shaped value: for a promise that chain delivers only Results
    that [$try] has built, and so does every run that meets no thenable
    other than a promise; what a [then] or [catch] member written by the
    caller hands back is not checked by [$try]. *)
Theorem C5_narrowing :
  (forall (r : value),
      built r ->
      (truthy (get r "error") = true -> has_own r "result" = false)
      /\ ((exists x, r = literal "result" x
                     /\ truthy (get r "error") = false
                     /\ has_own r "result" = true
                     /\ get r "result" = x)
          \/ (exists e, r = literal "error" e
                        /\ has_own r "result" = false
                        /\ truthy (get r "error") = truthy e)))
  /\ (forall (arg v : value) (st st' : state),
        dollar_try arg st = (Normal v, st') ->
        built v
        \/ exists (x : value) (st1 : state),
             is_thenable x = true
             /\ then_catch x st1 = (Normal v, st')
             /\ ((x = arg /\ st1 = st)
                 \/ (is_thenable arg = false /\ invoke arg st = (Normal x, st1))))
  /\ (forall (o : fate) (v r : value) (st st' : state),
        then_catch (VPromise o) st = (Normal v, st') ->
        delivered v = Some r ->
        built r)
  /\ (forall (arg v r : value) (st st' : state),
        dollar_try arg st = (Normal v, st') ->
        standard arg st = true ->
        delivered v = Some r ->
        built r).
Proof.
  split; [| split; [| split]].
  - intros r Hb. destruct (built_cases r Hb) as [[x ->] | [e ->]].
    + split; [discriminate |]. left. exists x. repeat split.
    + split; [reflexivity |]. right. exists e. repeat split.
  - apply dollar_try_accounts.
  - apply then_catch_promise_built.
  - apply dollar_try_standard_built.
Qed.

(** *** Exactly one slot *)

(** C6, as amended. Every Result that [$try] builds has exactly one of the
    slots [result] and [error] as an own property, never both and never
    neither. The Results that [$try] builds are all it returns, except that
    it returns as it is the value of the [then]/[catch] chain on an
    awaitable-shaped value: for a promise that chain delivers only Results
    that [$try] has built, and so does every run that meets no thenable
    other than a promise; what a [then] or [catch] member written by the
    caller hands back is not checked by [$try] and may have both slots or
    neither. In the declared Result type each variant has one slot that is
    required and declares the other one optional with type [never]. *)
Theorem C6_exactly_one :
  (forall (r : value), built r -> exactly_one r = true)
  /\ (forall (arg v : value) (st st' : state),
        dollar_try arg st = (Normal v, st') ->
        built v
        \/ exists (x : value) (st1 : state),
             is_thenable x = true
             /\ then_catch x st1 = (Normal v, st')
             /\ ((x = arg /\ st1 = st)
                 \/ (is_thenable arg = false /\ invoke arg st = (Normal x, st1))))
  /\ (forall (o : fate) (v r : value) (st st' : state),
        then_catch (VPromise o) st = (Normal v, st') ->
        delivered v = Some r ->
        built r)
  /\ (forall (arg v r : value) (st st' : state),
        dollar_try arg st = (Normal v, st') ->
        standard arg st = true ->
        delivered v = Some r ->
        built r)
  /\ (forall (T : Types.ty),
        Types.member (Types.ResultOrErrorResult T) "result"
        = Some (Types.mkField "result" false false T)
        /\ Types.member (Types.ResultOrErrorResult T) "error"
           = Some (Types.mkField "error" false true Types.never))
  /\ (forall (E : Types.ty),
        Types.member (Types.ResultOrErrorError E) "result"
        = Some (Types.mkField "result" false true Types.never)
        /\ Types.member (Types.ResultOrErrorError E) "error"
           = Some (Types.mkField "error" false false (Types.ErrorWithData E))).
Proof.
  split; [| split; [| split; [| split; [| split]]]].
  - intros r Hb. destruct (built_cases r Hb) as [[x ->] | [e ->]]; reflexivity.
  - apply dollar_try_accounts.
  - apply then_catch_promise_built.
  - apply dollar_try_standard_built.
  - intros T. split; reflexivity.
  - intros E. split; reflexivity.
Qed.

(** *** The type mismatch *)

(** C7, as amended. For every input that is neither a callable nor
    awaitable-shaped, [$try] raises a TypeError whose message names what is
    expected, at once and before any call is made, rather than returning a
    Result. Apart from this class, [$try] itself raises only for an
    awaitable-shaped input that is not a promise: for a promise and for a
    callable that is not awaitable-shaped it never raises. *)
Theorem C7_type_mismatch :
  (forall (arg : value) (st : state),
      is_function arg = false ->
      is_thenable arg = false ->
      dollar_try arg st = (Throw mismatch_error, st)
      /\ get mismatch_error "message" = VStr "$try expects a function or a Promise"
      /\ get mismatch_error "name" = VStr "TypeError")
  /\ (forall (arg e : value) (st st' : state),
        dollar_try arg st = (Throw e, st') ->
        (is_function arg = false /\ is_thenable arg = false)
        \/ foreign_thenable arg = true).
Proof.
  split.
  - intros arg st Hf Ht. split; [now apply dollar_try_mismatch |].
    split; reflexivity.
  - intros arg e st st' Hrun.
    destruct (is_thenable arg) eqn:Ht.
    + right. destruct (foreign_thenable arg) eqn:Hfor; [reflexivity |].
      destruct (standard_thenable_is_promise arg Ht Hfor) as [o ->].
      rewrite dollar_try_promise in Hrun. discriminate.
    + destruct (is_function arg) eqn:Hf; [| now left].
      rewrite dollar_try_callable in Hrun by assumption.
      destruct (invoke arg st) as [[x | e0] st1]; [| discriminate].
      destruct (is_thenable x); [| discriminate].
      destruct (then_catch x st1) as [[y | e1] st2]; discriminate.
Qed.

(** *** The failure payload *)

(** C8, as amended. The declared type of the failure slot, [Error & { data?:
    E }], has a required member [message: string] and an optional payload
    [data: E]. At runtime [$try] stores the captured raised value or
    rejection reason in the failure slot as it is: the slot carries a
    message exactly when the captured value does, as an Error object does
    and a raised number or string does not. *)
Theorem C8_payload_verbatim :
  (forall (E : Types.ty),
      exists f,
        Types.member (Types.ResultOrErrorError E) "error" = Some f
        /\ Types.f_optional f = false
        /\ Types.member (Types.f_type f) "message"
           = Some (Types.mkField "message" false false Types.tstring)
        /\ Types.member (Types.f_type f) "data"
           = Some (Types.mkField "data" false true E))
  /\ (forall (fn e : value) (st st1 : state),
        is_function fn = true ->
        is_thenable fn = false ->
        invoke fn st = (Throw e, st1) ->
        exists r,
          dollar_try fn st = (Normal r, st1)
          /\ get r "error" = e
          /\ get (get r "error") "message" = get e "message")
  /\ (forall (e : value) (st : state),
        exists r st',
          dollar_try (VPromise (Rejects e)) st = (Normal (VPromise (Fulfills r)), st')
          /\ get r "error" = e
          /\ get (get r "error") "message" = get e "message")
  /\ (forall (name msg : string) (w ext : bool),
        get (VObj (KError name) [("message", (VStr msg, w))] ext) "message" = VStr msg).
Proof.
  split; [| split; [| split]].
  - intros E. eexists. repeat split.
  - intros fn e st st1 Hf Ht Hi. exists (literal "error" e).
    split; [now apply dollar_try_throws |]. split; reflexivity.
  - intros e st. rewrite dollar_try_promise. do 2 eexists.
    split; [reflexivity |]. split; reflexivity.
  - reflexivity.
Qed.

(** *** Calls of the caller's functions *)

Lemma call_missing_member (p : value) (name : string) (h : closure) (st : state) :
  is_function (get p name) = false ->
  call_method p name h st
  = (Throw engine_TypeError, mkState (world st) (trace st ++ [EvMethod p name h])).
Proof.
  intros H. unfold Try.call_method, bind, log, throw.
  destruct p as [ | | | | | | k ps ext | h' | m | o]; try reflexivity;
    match goal with
    | H : is_function (get ?r name) = false |- _ =>
        destruct (get r name) as [ | | | | | | k' ps' ext' | h'' | m' | o'];
        try reflexivity; try discriminate;
        destruct k'; try reflexivity; discriminate
    end.
Qed.

(** The call [fn()] of a function of the caller is one run of that
    function, without receiver and without arguments, in the world of the
    moment. *)
Lemma invoke_user (f : fid) (ps : props_t) (ext : bool) (w : World)
    (tr : list event) :
  invoke (VObj (KFunction f) ps ext) (mkState w tr)
  = (fst (run f VUndefined [] w),
     mkState (snd (run f VUndefined [] w))
             (tr ++ [EvInvoke (VObj (KFunction f) ps ext)])).
Proof.
  unfold Try.invoke, bind, log, call_user. cbn.
  now destruct (run f VUndefined [] w) as [[x | e] w1].
Qed.

(** The member call [recv.name(h)] of a member written by the caller is one
    run of that member, with [recv] as receiver and [h] as only argument. *)
Lemma call_method_user (recv : value) (name : string) (h : closure)
    (g : fid) (ps : props_t) (ext : bool) (w : World) (tr : list event) :
  get recv name = VObj (KFunction g) ps ext ->
  call_method recv name h (mkState w tr)
  = (fst (run g recv [VClosure h] w),
     mkState (snd (run g recv [VClosure h] w)) (tr ++ [EvMethod recv name h])).
Proof.
  intros Hg. unfold Try.call_method, bind, log, call_user.
  destruct recv as [ | | | | | | k ps0 ext0 | h0 | m0 | o0]; try discriminate;
    rewrite Hg; cbn;
    now destruct (run g _ [VClosure h] w) as [[x | e] w1].
Qed.

Lemma call_catch_promise (o : fate) (h : closure) (st : state) :
  call_method (VPromise o) "catch" h st
  = (Normal (VPromise (promise_catch o h)),
     mkState (world st) (trace st ++ [EvMethod (VPromise o) "catch" h])).
Proof. reflexivity. Qed.

(** [$try] runs the caller's functions only through [fn()] and through
    member calls with one argument: a caller that differs only on calls
    without arguments gives the same member calls. *)
Lemma call_method_agrees
    (run' : fid -> value -> list value -> World -> completion value * World)
    (recv : value) (name : string) (h : closure) (st : state) :
  (forall g this a args w0, run' g this (a :: args) w0 = run g this (a :: args) w0) ->
  Try.call_method World run' recv name h st = call_method recv name h st.
Proof.
  intros Hrun. unfold Try.call_method, bind, log, call_user.
  destruct recv as [ | | | | | | k ps ext | h0 | m0 | o0]; try reflexivity;
    match goal with
    | |- context [get ?r name] =>
        destruct (get r name) as [ | | | | | | k' ps' ext' | h' | m' | o'];
        try reflexivity;
        destruct k'; try reflexivity; cbn; now rewrite Hrun
    end.
Qed.

Lemma then_catch_agrees
    (run' : fid -> value -> list value -> World -> completion value * World)
    (x : value) (st : state) :
  (forall g this a args w0, run' g this (a :: args) w0 = run g this (a :: args) w0) ->
  Try.then_catch World run' x st = then_catch x st.
Proof.
  intros Hrun. unfold Try.then_catch, bind.
  rewrite (call_method_agrees run' x "then" WrapResult st Hrun).
  destruct (call_method x "then" WrapResult st) as [[p | e] st1]; [| reflexivity].
  apply (call_method_agrees run' p "catch" WrapError st1 Hrun).
Qed.

(** [$try] on a function of the caller that is not awaitable-shaped, in
    terms of one run of the function. *)
Lemma dollar_try_user (f : fid) (ps : props_t) (ext : bool) (w : World)
    (tr : list event) :
  is_thenable (VObj (KFunction f) ps ext) = false ->
  dollar_try (VObj (KFunction f) ps ext) (mkState w tr)
  = match run f VUndefined [] w with
    | (Throw e, w1) =>
        (Normal (literal "error" e),
         mkState w1 (tr ++ [EvInvoke (VObj (KFunction f) ps ext)]))
    | (Normal x, w1) =>
        if is_thenable x then
          match then_catch x
                  (mkState w1 (tr ++ [EvInvoke (VObj (KFunction f) ps ext)])) with
          | (Throw e, st2) => (Normal (literal "error" e), st2)
          | r => r
          end
        else
          (Normal (literal "result" x),
           mkState w1 (tr ++ [EvInvoke (VObj (KFunction f) ps ext)]))
    end.
Proof.
  intros Ht. rewrite dollar_try_callable by (assumption || reflexivity).
  rewrite invoke_user. now destruct (run f VUndefined [] w) as [[x | e] w1].
Qed.

(** *** Calls and effects *)


(** *** Dispatch of a callable thenable *)

(** C10. For every input that is both callable and awaitable-shaped, [$try]
    dispatches it as an awaitable. It registers its continuations via
    [then]: its first action is one run of the input's [then] member, with
    the input as receiver and the success continuation as only argument;
    what that run raises leaves [$try], and on what it returns [$try] calls
    [catch] with the failure continuation (the built-in one when it is a
    promise, one run of the member when the caller wrote it; a TypeError
    is raised when there is none) and returns the outcome. It never invokes
    the input as a zero-argument callable: a caller that differs in any way
    on calls without arguments gets the same outcome, and no such call is
    made. *)
Theorem C10_thenable_first (arg : value) (w : World) (tr : list event) :
  is_function arg = true ->
  is_thenable arg = true ->
  (forall (g : fid) (ps : props_t) (ext : bool),
      get arg "then" = VObj (KFunction g) ps ext ->
      (forall e w1,
          run g arg [VClosure WrapResult] w = (Throw e, w1) ->
          dollar_try arg (mkState w tr)
          = (Throw e, mkState w1 (tr ++ [EvMethod arg "then" WrapResult])))
      /\ (forall o w1,
            run g arg [VClosure WrapResult] w = (Normal (VPromise o), w1) ->
            dollar_try arg (mkState w tr)
            = (Normal (VPromise (promise_catch o WrapError)),
               mkState w1 (tr ++ [EvMethod arg "then" WrapResult;
                                  EvMethod (VPromise o) "catch" WrapError])))
      /\ (forall p w1 g' ps' ext',
            run g arg [VClosure WrapResult] w = (Normal p, w1) ->
            get p "catch" = VObj (KFunction g') ps' ext' ->
            dollar_try arg (mkState w tr)
            = (fst (run g' p [VClosure WrapError] w1),
               mkState (snd (run g' p [VClosure WrapError] w1))
                       (tr ++ [EvMethod arg "then" WrapResult;
                               EvMethod p "catch" WrapError])))
      /\ (forall p w1,
            run g arg [VClosure WrapResult] w = (Normal p, w1) ->
            is_function (get p "catch") = false ->
            dollar_try arg (mkState w tr)
            = (Throw engine_TypeError,
               mkState w1 (tr ++ [EvMethod arg "then" WrapResult;
                                  EvMethod p "catch" WrapError]))))
  /\ (forall (run' : fid -> value -> list value -> World -> completion value * World),
        (forall g this a args w0,
            run' g this (a :: args) w0 = run g this (a :: args) w0) ->
        Try.dollar_try World run' arg (mkState w tr) = dollar_try arg (mkState w tr))
  /\ invocations (trace (snd (dollar_try arg (mkState w tr)))) = invocations tr.
Proof.
  intros Hf Ht. split; [| split].
  - intros g ps ext Hg.
    rewrite (dollar_try_thenable arg (mkState w tr) Ht).
    unfold Try.then_catch, bind.
    rewrite (call_method_user arg "then" WrapResult g ps ext w tr Hg).
    split; [| split; [| split]].
    + intros e w1 Hr. now rewrite Hr.
    + intros o w1 Hr. rewrite Hr. cbn [fst snd]. rewrite call_catch_promise.
      cbn [world trace]. now rewrite <- app_assoc.
    + intros p w1 g' ps' ext' Hr Hc. rewrite Hr. cbn [fst snd].
      rewrite (call_method_user p "catch" WrapError g' ps' ext' w1 _ Hc).
      now rewrite <- app_assoc.
    + intros p w1 Hr Hc. rewrite Hr. cbn [fst snd].
      rewrite (call_missing_member p "catch" WrapError _ Hc).
      cbn [world trace]. now rewrite <- app_assoc.
  - intros run' Hrun.
    rewrite (dollar_try_thenable arg (mkState w tr) Ht).
    unfold Try.dollar_try. rewrite Ht.
    now apply then_catch_agrees.
  - rewrite (dollar_try_thenable arg (mkState w tr) Ht).
    destruct (then_catch_trace arg (mkState w tr)) as [rest [Hr Hn]].
    rewrite Hr, invocations_app. cbn [trace].
    change (invocations (EvMethod arg "then" WrapResult :: rest))
      with (invocations rest).
    rewrite Hn. lia.
Qed.

End TryProperties.

(* ================================================================== *)
(** ** The scenarios of the specification, run *)

Section Runs.
Import Scenarios.

Local Notation dollar_try := (Try.dollar_try World run).
Local Notation invoke := (Try.invoke World run).

(** [$try(() => 42)] is [{ result: 42 }], at once. *)
Example scenario_sync_value :
  fst (dollar_try (fn 0) st0) = Normal (literal "result" (VNum 42)).
Proof. reflexivity. Qed.

(** [$try(() => { throw 'boom' })] is [{ error: 'boom' }], at once. *)
Example scenario_sync_throw :
  fst (dollar_try (fn 1) st0) = Normal (literal "error" (VStr "boom")).
Proof. reflexivity. Qed.

(** [await $try(Promise.resolve('ok'))] is [{ result: 'ok' }]. *)
Example scenario_promise_fulfils :
  fst (dollar_try (VPromise (Fulfills (VStr "ok"))) st0)
  = Normal (VPromise (Fulfills (literal "result" (VStr "ok")))).
Proof. reflexivity. Qed.

(** [await $try(Promise.reject(e))] is [{ error: e }]. *)
Example scenario_promise_rejects :
  fst (dollar_try (VPromise (Rejects (new_TypeError "net down"))) st0)
  = Normal (VPromise (Fulfills (literal "error" (new_TypeError "net down")))).
Proof. reflexivity. Qed.

(** [await $try(() => Promise.resolve(7))] is [{ result: 7 }]. *)
Example scenario_thunk_promise :
  fst (dollar_try (fn 4) st0)
  = Normal (VPromise (Fulfills (literal "result" (VNum 7)))).
Proof. reflexivity. Qed.

(** [$try(123)] raises the TypeError. *)
Example scenario_mismatch :
  dollar_try (VNum 123) st0 = (Throw mismatch_error, st0).
Proof. reflexivity. Qed.

(** A pending promise stays wrapped in a pending promise. *)
Example scenario_pending :
  fst (dollar_try (VPromise Never) st0) = Normal (VPromise Never).
Proof. reflexivity. Qed.

(** A frozen object refuses the assignment that a Result accepts. *)
Example frozen_refuses :
  exists frozen,
    freeze (literal "result" (VNum 42)) = Some frozen
    /\ is_frozen frozen = Some true
    /\ assign frozen "result" (VNum 7) = Some (frozen, false).
Proof. eexists. repeat split. Qed.

(** On the heap: promise 0 is wrapped while pending, then rejects; two
    jobs later the returned promise, number 2, is fulfilled with the
    failure Result. *)
Example heap_pending_then_rejects :
  fst (Jobs.then_catch 0 Jobs.one_pending) = 2
  /\ Jobs.status
       (Jobs.drain 2
          (Jobs.settle 0 (Rejects (VStr "net down"))
             (snd (Jobs.then_catch 0 Jobs.one_pending)))) 2
     = Fulfills (literal "error" (VStr "net down")).
Proof. split; reflexivity. Qed.

(** *** Witnesses *)

Lemma C1_sync_failure_witness :
  dollar_try (fn 1) st0
    = (Normal (literal "error" (VStr "boom")), mkState 1 [EvInvoke (fn 1)])
  /\ is_promise (literal "error" (VStr "boom")) = false
  /\ is_thenable (literal "error" (VStr "boom")) = false
  /\ get (literal "error" (VStr "boom")) "error" = VStr "boom"
  /\ has_own (literal "error" (VStr "boom")) "result" = false.
Proof.
  apply (C1_sync_failure World run (fn 1) (VStr "boom") st0
           (mkState 1 [EvInvoke (fn 1)])); reflexivity.
Defined.

Lemma C2_async_failure_witness :
  exists st2,
    dollar_try (fn 3) st0
      = (Normal (VPromise (Fulfills (literal "error" (VStr "net down")))), st2)
    /\ world st2 = 1.
Proof.
  apply (proj1 (proj2 (C2_async_failure World run (VStr "net down") st0))
           (fn 3) (mkState 1 [EvInvoke (fn 3)])); reflexivity.
Defined.

Lemma C3_success_witness :
  dollar_try (fn 0) st0
    = (Normal (literal "result" (VNum 42)), mkState 1 [EvInvoke (fn 0)])
  /\ is_promise (literal "result" (VNum 42)) = false.
Proof.
  apply (proj1 (C3_success World run (VNum 42) st0)
           (fn 0) (mkState 1 [EvInvoke (fn 0)])); reflexivity.
Defined.

Lemma C4_readonly_is_static_witness :
  exists (key : string) (x : value),
    literal "result" (VNum 42) = literal key x
    /\ is_frozen (literal "result" (VNum 42)) = Some false
    /\ forall y, assign (literal "result" (VNum 42)) key y = Some (literal key y, true)
                 /\ get (literal key y) key = y.
Proof.
  apply (proj1 (proj2 (proj2 (C4_readonly_is_static World run)))).
  apply (proj2 (proj2 (proj2 (proj2 (proj2 (C4_readonly_is_static World run)))))
           (fn 0) (literal "result" (VNum 42)) (literal "result" (VNum 42))
           st0 (mkState 1 [EvInvoke (fn 0)])); reflexivity.
Defined.

Lemma C5_narrowing_witness :
  (truthy (get (literal "error" (VStr "net down")) "error") = true ->
   has_own (literal "error" (VStr "net down")) "result" = false)
  /\ ((exists x, literal "error" (VStr "net down") = literal "result" x
                 /\ truthy (get (literal "error" (VStr "net down")) "error") = false
                 /\ has_own (literal "error" (VStr "net down")) "result" = true
                 /\ get (literal "error" (VStr "net down")) "result" = x)
      \/ (exists e, literal "error" (VStr "net down") = literal "error" e
                    /\ has_own (literal "error" (VStr "net down")) "result" = false
                    /\ truthy (get (literal "error" (VStr "net down")) "error")
                       = truthy e)).
Proof.
  apply (proj1 (C5_narrowing World run)).
  apply (proj2 (proj2 (proj2 (C5_narrowing World run))) (fn 3)
           (VPromise (Fulfills (literal "error" (VStr "net down"))))
           (literal "error" (VStr "net down")) st0
           (mkState 1 [EvInvoke (fn 3);
                       EvMethod (VPromise (Rejects (VStr "net down"))) "then" WrapResult;
                       EvMethod (VPromise (Rejects (VStr "net down"))) "catch" WrapError]));
    reflexivity.
Defined.

Lemma C6_exactly_one_witness :
  exactly_one (literal "result" (VNum 7)) = true.
Proof.
  apply (proj1 (C6_exactly_one World run)).
  apply (proj1 (proj2 (proj2 (proj2 (C6_exactly_one World run)))) (fn 4)
           (VPromise (Fulfills (literal "result" (VNum 7))))
           (literal "result" (VNum 7)) st0
           (mkState 1 [EvInvoke (fn 4);
                       EvMethod (VPromise (Fulfills (VNum 7))) "then" WrapResult;
                       EvMethod (VPromise (Fulfills (literal "result" (VNum 7))))
                         "catch" WrapError]));
    reflexivity.
Defined.

Lemma C7_type_mismatch_witness :
  dollar_try (VNum 123) st0 = (Throw mismatch_error, st0)
  /\ get mismatch_error "message" = VStr "$try expects a function or a Promise"
  /\ get mismatch_error "name" = VStr "TypeError".
Proof.
  apply (proj1 (C7_type_mismatch World run) (VNum 123) st0); reflexivity.
Defined.

Lemma C8_payload_verbatim_witness :
  exists r,
    dollar_try (fn 1) st0 = (Normal r, mkState 1 [EvInvoke (fn 1)])
    /\ get r "error" = VStr "boom"
    /\ get (get r "error") "message" = get (VStr "boom") "message".
Proof.
  apply (proj1 (proj2 (C8_payload_verbatim World run))
           (fn 1) (VStr "boom") st0 (mkState 1 [EvInvoke (fn 1)])); reflexivity.
Defined.


Lemma C10_thenable_first_witness :
  Try.dollar_try Recorder.World Recorder.run (fn_with_then 4 3) Recorder.st0
  = (Normal (VPromise (promise_catch (Fulfills (literal "result" (VNum 5))) WrapError)),
     mkState [(3, 1)]
       [EvMethod (fn_with_then 4 3) "then" WrapResult;
        EvMethod (VPromise (Fulfills (literal "result" (VNum 5)))) "catch" WrapError]).
Proof.
  apply (proj1 (proj2 (proj1 (C10_thenable_first Recorder.World Recorder.run
                                (fn_with_then 4 3) [] [] eq_refl eq_refl)
                         3 [] true eq_refl))
           (Fulfills (literal "result" (VNum 5))) [(3, 1)]); reflexivity.
Defined.

(** *** Counterexamples to the claims as stated *)

(** C1 as stated fails: a function that raises ['boom'] when invoked and has
    a [then] member is callable, yet [$try] returns no failure Result with
    payload ['boom'] for it; it returns the promise its [then] member
    returns. *)
Lemma C1_counterexample :
  is_function (fn_with_then 1 6) = true
  /\ fst (invoke (fn_with_then 1 6) st0) = Throw (VStr "boom")
  /\ fst (dollar_try (fn_with_then 1 6) st0)
     = Normal (VPromise (Fulfills (literal "result" (VNum 5))))
  /\ ~ (exists st',
          dollar_try (fn_with_then 1 6) st0
          = (Normal (literal "error" (VStr "boom")), st')).
Proof.
  repeat split. intros [st' H]. vm_compute in H. discriminate.
Qed.

(** C2 as stated fails: a function that returns a promise rejecting with
    ['net down'] and has a [then] member is a callable returning that
    promise, yet the promise [$try] returns does not fulfil with the
    failure Result for ['net down']. *)
Lemma C2_counterexample :
  is_function (fn_with_then 3 6) = true
  /\ fst (invoke (fn_with_then 3 6) st0) = Normal (VPromise (Rejects (VStr "net down")))
  /\ fst (dollar_try (fn_with_then 3 6) st0)
     = Normal (VPromise (Fulfills (literal "result" (VNum 5))))
  /\ ~ (exists st',
          dollar_try (fn_with_then 3 6) st0
          = (Normal (VPromise (Fulfills (literal "error" (VStr "net down")))), st')).
Proof.
  repeat split. intros [st' H]. vm_compute in H. discriminate.
Qed.

(** C3 as stated fails: a function that returns the plain value 42 and has
    a [then] member that raises is a callable returning 42, yet [$try]
    yields no success Result: the value raised by the [then] member leaves
    [$try]. *)
Lemma C3_counterexample :
  is_function (fn_with_then 0 5) = true
  /\ fst (invoke (fn_with_then 0 5) st0) = Normal (VNum 42)
  /\ is_thenable (VNum 42) = false
  /\ fst (dollar_try (fn_with_then 0 5) st0) = Throw (VStr "bad then")
  /\ ~ (exists st',
          dollar_try (fn_with_then 0 5) st0
          = (Normal (literal "result" (VNum 42)), st')).
Proof.
  repeat split. intros [st' H]. vm_compute in H. discriminate.
Qed.

(** C4 as stated fails: the Result of [$try(() => 42)] is not frozen, the
    assignment [r.result = 7] takes place, and the Result read afterwards
    has changed. *)
Lemma C4_counterexample :
  fst (dollar_try (fn 0) st0) = Normal (literal "result" (VNum 42))
  /\ is_frozen (literal "result" (VNum 42)) = Some false
  /\ assign (literal "result" (VNum 42)) "result" (VNum 7)
     = Some (literal "result" (VNum 7), true)
  /\ get (literal "result" (VNum 42)) "result" = VNum 42
  /\ get (literal "result" (VNum 7)) "result" = VNum 7.
Proof. repeat split. Qed.

(** C5 as stated fails: [$try(() => { throw 0 })] is the Result
    [{ error: 0 }], whose failure slot is falsy while its value slot is
    absent. *)
Lemma C5_counterexample :
  fst (dollar_try (fn 2) st0) = Normal (literal "error" (VNum 0))
  /\ truthy (get (literal "error" (VNum 0)) "error") = false
  /\ has_own (literal "error" (VNum 0)) "result" = false
  /\ get (literal "error" (VNum 0)) "result" = VUndefined.
Proof. repeat split. Qed.

(** C6 as stated fails: for the awaitable-shaped object whose [then]
    member returns an object whose [catch] member returns
    [{ result: 1, error: 2 }], [$try] returns that value, which has both
    slots. *)
Lemma C6_counterexample :
  is_thenable (thenable 1) = true
  /\ Try.dollar_try Recorder.World Recorder.run (thenable 1) Recorder.st0
     = (Normal Recorder.both_slots,
        mkState [(1, 1); (2, 1)]
          [EvMethod (thenable 1) "then" WrapResult;
           EvMethod (Recorder.with_catch 2) "catch" WrapError])
  /\ has_own Recorder.both_slots "result" = true
  /\ has_own Recorder.both_slots "error" = true
  /\ exactly_one Recorder.both_slots = false.
Proof. repeat split. Qed.

(** C7 as stated fails: the object [{ then() { throw 'bad then' } }] is
    awaitable-shaped, and [$try] raises for it. *)
Lemma C7_counterexample :
  is_thenable (thenable 5) = true
  /\ fst (dollar_try (thenable 5) st0) = Throw (VStr "bad then").
Proof. repeat split. Qed.

(** C8 as stated fails: [$try(() => { throw 42 })] is the failure Result
    [{ error: 42 }], whose failure slot is the number 42 and has no
    message. *)
Lemma C8_counterexample :
  fst (dollar_try (fn 7) st0) = Normal (literal "error" (VNum 42))
  /\ get (literal "error" (VNum 42)) "error" = VNum 42
  /\ get (get (literal "error" (VNum 42)) "error") "message" = VUndefined.
Proof. repeat split. Qed.


End Runs.

(* ================================================================== *)
(** ** Further properties of [DeepReadonly] *)

Section TypeExtras.
Import Types.
Variable extends_function : ty -> bool.

Local Notation DR := (DeepReadonly extends_function).

Lemma find_field_readonly (dr : ty -> ty) (k : string) (fs : list (field ty)) :
  find_field k (map (readonly_field dr) fs)
  = option_map (readonly_field dr) (find_field k fs).
Proof.
  induction fs as [| f fs IH]; cbn; [reflexivity |].
  destruct (String.eqb k (f_name f)); [reflexivity | exact IH].
Qed.

Lemma map_readonly_twice (fs : list (field ty)) :
  Forall (fun f => DR (DR (f_type f)) = DR (f_type f)) fs ->
  map (readonly_field DR) (map (readonly_field DR) fs) = map (readonly_field DR) fs.
Proof.
  induction 1 as [| f fs Hf _ IH]; cbn [map]; [reflexivity |].
  rewrite IH. f_equal. unfold readonly_field.
  cbn [f_name f_optional f_type]. now rewrite Hf.
Qed.

Lemma map_twice (ts : list ty) :
  Forall (fun t => DR (DR t) = DR t) ts -> map DR (map DR ts) = map DR ts.
Proof.
  induction 1 as [| t ts Ht _ IH]; cbn [map]; [reflexivity |].
  now rewrite Ht, IH.
Qed.

Lemma DeepReadonly_object (fs : list (field ty)) :
  DR (TObject fs)
  = if extends_function (TObject fs) then TObject fs
    else TObject (map (readonly_field DR) fs).
Proof. reflexivity. Qed.

Lemma DeepReadonly_array (ro : bool) (e : ty) :
  DR (TArray ro e)
  = if extends_function (TArray ro e) then TArray ro e else TArray true (DR e).
Proof. reflexivity. Qed.

Lemma DeepReadonly_function (ps : list ty) (r : ty) :
  DR (TFunction ps r)
  = if extends_function (TFunction ps r) then TFunction ps r else TObject [].
Proof. reflexivity. Qed.

Lemma DeepReadonly_prim (n : string) : DR (TPrim n) = TPrim n.
Proof. cbn. now destruct (extends_function (TPrim n)). Qed.

Lemma DeepReadonly_union (ts : list ty) : DR (TUnion ts) = TUnion (map DR ts).
Proof. reflexivity. Qed.

(** X1. [DeepReadonly] is idempotent: applied to a type it has produced it
    changes nothing, whatever the outcome of the function test on the
    types involved. *)
Theorem DeepReadonly_idempotent (t : ty) : DR (DR t) = DR t.
Proof.
  induction t as [n | ps r _ _ | fs IH | ro e IH | ts IH] using ty_nested_ind.
  - now rewrite !DeepReadonly_prim.
  - rewrite DeepReadonly_function.
    destruct (extends_function (TFunction ps r)) eqn:E.
    + rewrite DeepReadonly_function. now rewrite E.
    + rewrite DeepReadonly_object. now destruct (extends_function (TObject [])).
  - rewrite DeepReadonly_object.
    destruct (extends_function (TObject fs)) eqn:E.
    + rewrite DeepReadonly_object. now rewrite E.
    + rewrite DeepReadonly_object.
      destruct (extends_function (TObject (map (readonly_field DR) fs)));
        [reflexivity |].
      now rewrite map_readonly_twice.
  - rewrite DeepReadonly_array.
    destruct (extends_function (TArray ro e)) eqn:E.
    + rewrite DeepReadonly_array. now rewrite E.
    + rewrite DeepReadonly_array.
      destruct (extends_function (TArray true (DR e))); [reflexivity |].
      now rewrite IH.
  - rewrite !DeepReadonly_union. now rewrite map_twice.
Qed.

(** X2. On an object type that is not a function, [DeepReadonly] keeps
    exactly the members of the type: a member is declared after the mapping
    if and only if it was declared before, under the same name and with the
    same optionality; it is [readonly], and its type is [DeepReadonly] of
    the type it had. *)
Theorem DeepReadonly_members (fs : list (field ty)) (k : string) :
  extends_function (TObject fs) = false ->
  member (DR (TObject fs)) k
  = option_map (fun f => mkField (f_name f) true (f_optional f) (DR (f_type f)))
      (member (TObject fs) k).
Proof.
  intros E. rewrite DeepReadonly_object, E. cbn [member].
  apply find_field_readonly.
Qed.

End TypeExtras.

(* ================================================================== *)
(** ** Further properties of [$try] *)

Section TryExtras.

Variable World : Type.
Variable run : fid -> value -> list value -> World -> completion value * World.

Local Notation state := (Try.state World).
Local Notation invoke := (Try.invoke World run).
Local Notation then_catch := (Try.then_catch World run).
Local Notation dollar_try := (Try.dollar_try World run).
Local Notation standard := (Try.standard World run).
Local Notation call_method := (Try.call_method World run).

Lemma falsy_is_no_computation (v : value) :
  truthy v = false -> is_thenable v = false /\ is_function v = false.
Proof.
  intros H. split.
  - unfold is_thenable. now rewrite H.
  - destruct v as [ | | | | | | k ps ext | h | m | o]; try reflexivity;
      discriminate.
Qed.

Lemma literal_is_no_computation (key : string) (x : value) :
  key <> "then" ->
  is_thenable (literal key x) = false /\ is_function (literal key x) = false.
Proof. intros Hk. split; [now apply literal_not_thenable | reflexivity]. Qed.

(** X3. Every falsy input ([undefined], [null], [false], [0], [NaN], the
    empty string) gets the TypeError of line 34, with nothing called and
    nothing changed: the guard [arg &&] of line 27 keeps [$try] from
    reading [then] on [undefined] or [null]. *)
Theorem falsy_input_raises (arg : value) (st : state) :
  truthy arg = false ->
  dollar_try arg st = (Throw mismatch_error, st).
Proof.
  intros H. destruct (falsy_is_no_computation arg H) as [Ht Hf].
  now apply dollar_try_mismatch.
Qed.

(** X4. Wrapping a callable that returns an awaitable-shaped value is
    wrapping that value, inside the [try] block: [$try(fn)] completes as
    [$try(x)] does in the state the call of [fn] left, except that a value
    raised by the members of [x], which leaves [$try(x)], is returned as the
    failure Result [{ error: e }]. When [x] is a promise the two are
    equal. *)
Theorem thunk_of_awaitable (fn x : value) (st st1 : state) :
  is_function fn = true ->
  is_thenable fn = false ->
  invoke fn st = (Normal x, st1) ->
  is_thenable x = true ->
  dollar_try fn st
  = match dollar_try x st1 with
    | (Throw e, st2) => (Normal (literal "error" e), st2)
    | r => r
    end
  /\ (is_promise x = true -> dollar_try fn st = dollar_try x st1).
Proof.
  intros Hf Ht Hi Hx.
  rewrite (dollar_try_callable World run fn st Ht Hf), Hi, Hx.
  rewrite (dollar_try_thenable World run x st1 Hx).
  split; [reflexivity |].
  intros Hp. destruct x; try discriminate.
  now rewrite then_catch_promise.
Qed.

(** X5. In a standard run the value [$try] returns is a promise exactly
    when the computation is asynchronous: when the input is awaitable-shaped
    or the callable returned an awaitable-shaped value. A callable that
    raises or returns a plain value never yields a promise. *)
Theorem promise_iff_asynchronous (arg v : value) (st st' : state) :
  dollar_try arg st = (Normal v, st') ->
  standard arg st = true ->
  (is_promise v = true <->
   is_thenable arg = true
   \/ (exists x st1, invoke arg st = (Normal x, st1) /\ is_thenable x = true)).
Proof.
  intros Hrun Hstd.
  unfold Try.standard in Hstd. apply andb_true_iff in Hstd.
  destruct Hstd as [Harg Hret]. apply negb_true_iff in Harg.
  destruct (is_thenable arg) eqn:Ht.
  - destruct (standard_thenable_is_promise arg Ht Harg) as [o ->].
    rewrite dollar_try_promise in Hrun. inversion Hrun; subst.
    split; [now left | reflexivity].
  - destruct (is_function arg) eqn:Hf.
    + rewrite dollar_try_callable in Hrun by assumption.
      destruct (invoke arg st) as [[x | e] st1].
      * apply negb_true_iff in Hret.
        destruct (is_thenable x) eqn:Hx.
        -- destruct (standard_thenable_is_promise x Hx Hret) as [o ->].
           rewrite then_catch_promise in Hrun. inversion Hrun; subst.
           split; [| reflexivity]. intros _. right. now exists (VPromise o), st1.
        -- inversion Hrun; subst. split; [discriminate |].
           intros [H | [y [st2 [Hy Hyt]]]]; [discriminate |].
           inversion Hy; subst. congruence.
      * inversion Hrun; subst. split; [discriminate |].
        intros [H | [y [st2 [Hy _]]]]; discriminate.
    + rewrite dollar_try_mismatch in Hrun by assumption. discriminate.
Qed.

(** X6. A Result is not a computation: every Result that [$try] builds,
    [{ result: x }] or [{ error: e }], whatever its payload is, a promise or
    a function included, gets the TypeError of line 34 when it is handed
    back to [$try]; so does every Result delivered by a run that meets no
    thenable other than a promise. *)
Theorem result_is_no_computation :
  (forall (r : value) (st : state),
      built r -> dollar_try r st = (Throw mismatch_error, st))
  /\ (forall (arg v r : value) (st st' st2 : state),
        dollar_try arg st = (Normal v, st') ->
        standard arg st = true ->
        delivered v = Some r ->
        dollar_try r st2 = (Throw mismatch_error, st2)).
Proof.
  assert (H : forall (r : value) (st : state),
             built r -> dollar_try r st = (Throw mismatch_error, st)).
  { intros r st Hb. destruct (built_cases r Hb) as [[x ->] | [e ->]];
      apply dollar_try_mismatch; try reflexivity;
      apply literal_not_thenable; discriminate. }
  split; [exact H |].
  intros arg v r st st' st2 Hrun Hstd Hdel. apply H.
  exact (dollar_try_standard_built World run arg v r st st' Hrun Hstd Hdel).
Qed.

(** X7. Wrapping twice: when a run that meets no thenable other than a
    promise returns a promise, [$try] applied to that promise returns a
    promise again, which delivers the success Result [{ result: r }]
    exactly when the first promise delivers the Result [r], and delivers
    nothing while the first does not. In such a run the second wrapping
    never delivers a failure. *)
Theorem wrapped_twice (arg v1 : value) (st st1 : state) :
  dollar_try arg st = (Normal v1, st1) ->
  standard arg st = true ->
  is_promise v1 = true ->
  exists v2 st2,
    dollar_try v1 st1 = (Normal v2, st2)
    /\ is_promise v2 = true
    /\ delivered v2 = option_map (literal "result") (delivered v1)
    /\ world st2 = world st1.
Proof.
  intros Hrun Hstd Hp. destruct v1 as [ | | | | | | | | | o]; try discriminate.
  rewrite dollar_try_promise. do 2 eexists. split; [reflexivity |].
  split; [reflexivity |]. split; [| reflexivity].
  destruct o as [r | x |]; try reflexivity.
  exfalso. exact (dollar_try_never_rejects World run arg x st st1 Hrun Hstd).
Qed.


End TryExtras.

(* ================================================================== *)
(** ** Further properties of the [then]/[catch] chain on the heap *)

Section JobExtras.
Import JS Jobs.

(** While the wrapped promise is pending, so are the two derived ones. *)
Lemma chain_pending (p d1 d2 : pid) (h : heap) :
  wf h -> chain p d1 d2 h -> pending (status h p) = true ->
  pending (status h d2) = true.
Proof.
  intros Hwf Hc Hp. destruct Hc as [Hw1 Hw2 | Hj1 Hw2 | Hp' H1 Hj2 | Hp' H1 H2].
  - apply (wf_target_pending h Hwf), (target_in_waiting h d1 (r2 d2) Hw2).
  - pose proof (wf_queue h Hwf _ Hj1) as Hs. cbn in Hs. congruence.
  - congruence.
  - congruence.
Qed.

(** Registering the chain is two steps of the heap. *)
Lemma then_catch_steps (p : pid) (h : heap) :
  p < next h -> steps h (snd (then_catch p h)).
Proof.
  intros Hp. unfold then_catch.
  destruct (register p (Some WrapResult) None h) as [d1 h1] eqn:E1.
  assert (Ed1 : d1 = next h) by (unfold register in E1; now inversion E1).
  assert (Eh1 : h1 = snd (register p (Some WrapResult) None h)) by now rewrite E1.
  eapply steps_cons; [apply (step_register h p (Some WrapResult) None Hp) |].
  rewrite <- Eh1.
  eapply steps_cons; [| apply steps_refl].
  apply step_register. rewrite Eh1, next_register, Ed1. lia.
Qed.

(** X8. The promise that the chain of lines 28 to 30 returns does not
    settle before the wrapped promise: whatever the program does after the
    registration, as long as the wrapped promise is pending the returned
    promise is pending too. *)
Theorem then_catch_not_early (p : pid) (h h' : heap) :
  wf h -> p < next h ->
  steps (snd (then_catch p h)) h' ->
  status h' p = Never ->
  status h' (fst (then_catch p h)) = Never.
Proof.
  intros Hwf Hp Hsteps Hs.
  destruct (then_catch_chain p h Hwf Hp) as [Hd2 [Hwf2 Hc2]].
  destruct (chain_steps p (next h) (S (next h)) _ h' Hwf2 Hc2 Hsteps) as [Hwf' Hc'].
  rewrite Hd2. apply pending_true.
  apply (chain_pending p (next h) (S (next h)) h' Hwf' Hc').
  now rewrite Hs.
Qed.

(** X9. Wrapping the same promise twice: the two chains return two
    distinct promises, both distinct from the wrapped one, and neither
    disturbs the other: once the wrapped promise has settled as [o], the
    jobs left settle both returned promises with the same Result. *)
Theorem then_catch_twice (p : pid) (h h' : heap) (o : fate) :
  wf h -> p < next h ->
  steps (snd (then_catch p (snd (then_catch p h)))) h' ->
  status h' p = o -> pending o = false ->
  fst (then_catch p h) <> fst (then_catch p (snd (then_catch p h)))
  /\ fst (then_catch p h) <> p
  /\ fst (then_catch p (snd (then_catch p h))) <> p
  /\ status (drain (backlog h') h') (fst (then_catch p h))
     = promise_catch (promise_then o WrapResult) WrapError
  /\ status (drain (backlog h') h') (fst (then_catch p (snd (then_catch p h))))
     = promise_catch (promise_then o WrapResult) WrapError.
Proof.
  intros Hwf Hp Hsteps Hs Ho.
  destruct (then_catch_chain p h Hwf Hp) as [Hd [Hwf1 _]].
  assert (Hn1 : next (snd (then_catch p h)) = S (S (next h))).
  { unfold then_catch.
    destruct (register p (Some WrapResult) None h) as [d1 h1] eqn:E1.
    rewrite next_register.
    replace h1 with (snd (register p (Some WrapResult) None h)) by now rewrite E1.
    now rewrite next_register. }
  assert (Hp1 : p < next (snd (then_catch p h))) by lia.
  destruct (then_catch_chain p _ Hwf1 Hp1) as [Hd' _].
  assert (Hsteps0 : steps (snd (then_catch p h)) h').
  { eapply steps_trans; [apply (then_catch_steps p _ Hp1) | exact Hsteps]. }
  destruct (then_catch_settles p h h' o Hwf Hp Hsteps0 Hs Ho) as [_ [_ H1]].
  destruct (then_catch_settles p _ h' o Hwf1 Hp1 Hsteps Hs Ho) as [_ [_ H2]].
  rewrite Hd, Hd', Hn1 in *.
  repeat split; try lia; assumption.
Qed.

End JobExtras.

(* ================================================================== *)
(** ** The further properties, run *)

Section ExtraRuns.
Import Scenarios.

Local Notation dollar_try := (Try.dollar_try World run).
Local Notation invoke := (Try.invoke World run).

Lemma DeepReadonly_members_witness :
  Types.member
    (Types.DeepReadonly (fun _ => false)
       (Types.TObject [ Types.mkField "result" false false Types.tstring;
                        Types.mkField "error" false true Types.never ]))
    "error"
  = option_map
      (fun f => Types.mkField (Types.f_name f) true (Types.f_optional f)
                  (Types.DeepReadonly (fun _ => false) (Types.f_type f)))
      (Types.member
         (Types.TObject [ Types.mkField "result" false false Types.tstring;
                          Types.mkField "error" false true Types.never ])
         "error").
Proof.
  apply (DeepReadonly_members (fun _ => false)); reflexivity.
Defined.

Lemma falsy_input_raises_witness :
  dollar_try VNull st0 = (Throw mismatch_error, st0).
Proof.
  apply (falsy_input_raises World run VNull st0); reflexivity.
Defined.

Lemma thunk_of_awaitable_witness :
  dollar_try (fn 4) st0
  = match dollar_try (VPromise (Fulfills (VNum 7))) (mkState 1 [EvInvoke (fn 4)]) with
    | (Throw e, st2) => (Normal (literal "error" e), st2)
    | r => r
    end
  /\ (is_promise (VPromise (Fulfills (VNum 7))) = true ->
      dollar_try (fn 4) st0
      = dollar_try (VPromise (Fulfills (VNum 7))) (mkState 1 [EvInvoke (fn 4)])).
Proof.
  apply (thunk_of_awaitable World run (fn 4) (VPromise (Fulfills (VNum 7))) st0
           (mkState 1 [EvInvoke (fn 4)])); reflexivity.
Defined.

Lemma promise_iff_asynchronous_witness :
  is_promise (literal "result" (VNum 42)) = true <->
  is_thenable (fn 0) = true
  \/ (exists x st1, invoke (fn 0) st0 = (Normal x, st1) /\ is_thenable x = true).
Proof.
  apply (promise_iff_asynchronous World run (fn 0) (literal "result" (VNum 42)) st0
           (mkState 1 [EvInvoke (fn 0)])); reflexivity.
Defined.

Lemma result_is_no_computation_witness :
  dollar_try (literal "result" (VNum 42)) st0 = (Throw mismatch_error, st0).
Proof.
  apply (proj2 (result_is_no_computation World run) (fn 0)
           (literal "result" (VNum 42)) (literal "result" (VNum 42))
           st0 (mkState 1 [EvInvoke (fn 0)]) st0); reflexivity.
Defined.

Lemma wrapped_twice_witness :
  exists v2 st2,
    dollar_try (VPromise (Fulfills (literal "error" (VStr "net down"))))
      (mkState 1 [EvInvoke (fn 3);
                  EvMethod (VPromise (Rejects (VStr "net down"))) "then" WrapResult;
                  EvMethod (VPromise (Rejects (VStr "net down"))) "catch" WrapError])
    = (Normal v2, st2)
    /\ is_promise v2 = true
    /\ delivered v2
       = option_map (literal "result")
           (delivered (VPromise (Fulfills (literal "error" (VStr "net down")))))
    /\ world st2 = 1.
Proof.
  apply (wrapped_twice World run (fn 3)
           (VPromise (Fulfills (literal "error" (VStr "net down")))) st0
           (mkState 1 [EvInvoke (fn 3);
                       EvMethod (VPromise (Rejects (VStr "net down"))) "then" WrapResult;
                       EvMethod (VPromise (Rejects (VStr "net down"))) "catch" WrapError]));
    reflexivity.
Defined.


Lemma then_catch_not_early_witness :
  Jobs.status (snd (Jobs.then_catch 0 Jobs.one_pending))
    (fst (Jobs.then_catch 0 Jobs.one_pending)) = Never.
Proof.
  apply (then_catch_not_early 0 Jobs.one_pending
           (snd (Jobs.then_catch 0 Jobs.one_pending)) wf_one_pending).
  - cbn. lia.
  - apply Jobs.steps_refl.
  - reflexivity.
Defined.

Lemma then_catch_twice_witness :
  fst (Jobs.then_catch 0 Jobs.one_pending)
  <> fst (Jobs.then_catch 0 (snd (Jobs.then_catch 0 Jobs.one_pending)))
  /\ fst (Jobs.then_catch 0 Jobs.one_pending) <> 0
  /\ fst (Jobs.then_catch 0 (snd (Jobs.then_catch 0 Jobs.one_pending))) <> 0
  /\ Jobs.status
       (Jobs.drain
          (Jobs.backlog
             (Jobs.settle 0 (Fulfills (VNum 7))
                (snd (Jobs.then_catch 0 (snd (Jobs.then_catch 0 Jobs.one_pending))))))
          (Jobs.settle 0 (Fulfills (VNum 7))
             (snd (Jobs.then_catch 0 (snd (Jobs.then_catch 0 Jobs.one_pending))))))
       (fst (Jobs.then_catch 0 Jobs.one_pending))
     = promise_catch (promise_then (Fulfills (VNum 7)) WrapResult) WrapError
  /\ Jobs.status
       (Jobs.drain
          (Jobs.backlog
             (Jobs.settle 0 (Fulfills (VNum 7))
                (snd (Jobs.then_catch 0 (snd (Jobs.then_catch 0 Jobs.one_pending))))))
          (Jobs.settle 0 (Fulfills (VNum 7))
             (snd (Jobs.then_catch 0 (snd (Jobs.then_catch 0 Jobs.one_pending))))))
       (fst (Jobs.then_catch 0 (snd (Jobs.then_catch 0 Jobs.one_pending))))
     = promise_catch (promise_then (Fulfills (VNum 7)) WrapResult) WrapError.
Proof.
  apply (then_catch_twice 0 Jobs.one_pending
           (Jobs.settle 0 (Fulfills (VNum 7))
              (snd (Jobs.then_catch 0 (snd (Jobs.then_catch 0 Jobs.one_pending)))))
           (Fulfills (VNum 7)) wf_one_pending).
  - cbn. lia.
  - eapply Jobs.steps_cons; [| apply Jobs.steps_refl].
    apply Jobs.step_settle.
    + cbn. lia.
    + reflexivity.
    + reflexivity.
    + cbn. lia.
  - reflexivity.
  - reflexivity.
Defined.

End ExtraRuns.
